(** * PopupStub: the popup controller of react-native-popup-stub

    A shallow embedding of [src/PopupStub.js] and the properties of its
    registry, removal state machine and back-button handling.

    Conventions of the embedding.
    - A popup record is a JavaScript object. Its identity and private
      fields ([id] and the fields whose name starts with an underscore,
      which [resetPopupProperty] refuses to touch) are record fields with
      the type the controller uses them at; every other own property lives
      in a property bag of dynamically typed values, read with the host
      language's truthiness, strict equality and arithmetic.
    - [this.state.popups] is a JavaScript [Map]: an association list in
      insertion order with unique keys.
    - [setState(partial, callback)] is applied at once and leaves a [Commit]
      in the trace; the callback runs after it. React may postpone both to
      the end of the running batch, which keeps that order.
    - Lifecycle callbacks are functions of the application: the controller's
      calls to them are recorded in the trace, in order; what they do is not
      part of the controller.
    - Numbers are exact rationals or NaN; infinities, negative zero and
      rounding are left out.
    - The calls of [log] are left out. *)

From Stdlib Require Import ZArith QArith Qround Ascii Sorted Lqa.
From stdpp Require Import base gmap strings list.

Local Open Scope string_scope.
Local Open Scope list_scope.

(** ** Values of the host language *)

Inductive Number :=
| NaN
| Fin (q : Q).

Inductive Fn :=
| UserFn (name : string)      (* a function handed in by the application *)
| RemoveNowFn (id : string).  (* the closure [() => this.removePopupImmediately(id)] *)

Inductive Value :=
| VUndefined
| VNull
| VBool (b : bool)
| VNum (n : Number)
| VStr (s : string)
| VFun (f : Fn)
| VObj (handle : string).     (* any other object: keyframes, a React element *)

Definition nonempty (s : string) : bool :=
  match s with EmptyString => false | String _ _ => true end.

(* ToBoolean *)
Definition truthy (v : Value) : bool :=
  match v with
  | VUndefined | VNull => false
  | VBool b => b
  | VNum NaN => false
  | VNum (Fin q) => negb (Qeq_bool q 0)
  | VStr s => nonempty s
  | VFun _ | VObj _ => true
  end.

Definition number_eq (a b : Number) : bool :=
  match a, b with
  | Fin x, Fin y => Qeq_bool x y
  | _, _ => false
  end.

Definition fn_eq (f g : Fn) : bool :=
  match f, g with
  | UserFn a, UserFn b => String.eqb a b
  | RemoveNowFn a, RemoveNowFn b => String.eqb a b
  | _, _ => false
  end.

(* [a === b]; functions and objects compare by their handle *)
Definition strict_eq (a b : Value) : bool :=
  match a, b with
  | VUndefined, VUndefined => true
  | VNull, VNull => true
  | VBool x, VBool y => Bool.eqb x y
  | VNum x, VNum y => number_eq x y
  | VStr x, VStr y => String.eqb x y
  | VFun f, VFun g => fn_eq f g
  | VObj x, VObj y => String.eqb x y
  | _, _ => false
  end.

(* [typeof v === 'string'] *)
Definition is_string (v : Value) : bool :=
  match v with VStr _ => true | _ => false end.

(* [a || b] *)
Definition js_or (a b : Value) : Value := if truthy a then a else b.

Definition number_sub (a b : Number) : Number :=
  match a, b with
  | Fin x, Fin y => Fin (x - y)
  | _, _ => NaN
  end.

(* the controller only divides by 2; a zero divisor, which gives an
   infinity in the host language, is NaN here *)
Definition number_div (a b : Number) : Number :=
  match a, b with
  | Fin x, Fin y => if Qeq_bool y 0 then NaN else Fin (x / y)
  | _, _ => NaN
  end.

(* what [Array.prototype.sort] asks of a comparator's result: [v > 0] *)
Definition positive (n : Number) : bool :=
  match n with
  | NaN => false
  | Fin q => negb (Qle_bool q 0)
  end.

(** ** Arrays: [Array.prototype.sort(comparefn)]

    A stable insertion sort: each element in turn is moved left past the
    elements of the sorted prefix that the comparator puts after it. With a
    consistent comparator every stable sort gives this result; with an
    inconsistent one the language leaves the order to the engine. *)

Section Sort.
Context {A : Type} (comparefn : A -> A -> Number).

(* [prefix] is the sorted prefix from its right end *)
Fixpoint place (element : A) (prefix : list A) : list A :=
  match prefix with
  | [] => [element]
  | tmp :: rest =>
      if positive (comparefn tmp element)
      then tmp :: place element rest
      else element :: prefix
  end.

Definition sort_rev (l : list A) : list A :=
  fold_left (fun prefix element => place element prefix) l [].

Definition sort (l : list A) : list A := rev (sort_rev l).

(* [Array.prototype.pop]: the last element *)
Definition pop (l : list A) : option A := head (rev l).
End Sort.

(** ** [Map]: insertion-ordered, one entry per key *)

Section JSMap.
Context {V : Type}.

Fixpoint map_get (k : string) (m : list (string * V)) : option V :=
  match m with
  | [] => None
  | (k', v) :: m' => if String.eqb k k' then Some v else map_get k m'
  end.

Definition map_has (k : string) (m : list (string * V)) : bool :=
  match map_get k m with Some _ => true | None => false end.

(* an existing key keeps its place, a new key goes last *)
Fixpoint map_set (k : string) (v : V) (m : list (string * V)) : list (string * V) :=
  match m with
  | [] => [(k, v)]
  | (k', v') :: m' =>
      if String.eqb k k' then (k, v) :: m' else (k', v') :: map_set k v m'
  end.

Definition map_delete (k : string) (m : list (string * V)) : list (string * V) :=
  List.filter (fun kv => negb (String.eqb k (fst kv))) m.

Definition map_keys (m : list (string * V)) : list string := map fst m.
Definition map_values (m : list (string * V)) : list V := map snd m.

(* [new Map(entries)] *)
Definition map_of_entries (entries : list (string * V)) : list (string * V) :=
  fold_left (fun m kv => map_set (fst kv) (snd kv) m) entries [].
End JSMap.

(** ** Popup records *)

Record Popup := mkPopup {
  id : string;
  _orderId : Z;
  _closing : bool;
  _maskDelay : Number;
  _maskAnimation : Value;
  _maskAnimatable : bool;
  fields : gmap string Value   (* zIndex, visible, animation, duration, onClosed, ... *)
}.

(* [popup.key] for a public key; a missing property reads as undefined *)
Definition prop (popup : Popup) (key : string) : Value :=
  default VUndefined (fields popup !! key).

(* [popup.hasOwnProperty(key)] for a public key *)
Definition hasOwnProperty (popup : Popup) (key : string) : bool :=
  match fields popup !! key with Some _ => true | None => false end.

(* [popup[key] = value] for a public key *)
Definition set_prop (popup : Popup) (key : string) (value : Value) : Popup :=
  mkPopup (id popup) (_orderId popup) (_closing popup) (_maskDelay popup)
    (_maskAnimation popup) (_maskAnimatable popup) (<[key := value]> (fields popup)).

Definition set_closing (popup : Popup) (b : bool) : Popup :=
  mkPopup (id popup) (_orderId popup) b (_maskDelay popup)
    (_maskAnimation popup) (_maskAnimatable popup) (fields popup).

Definition set_maskDelay (popup : Popup) (n : Number) : Popup :=
  mkPopup (id popup) (_orderId popup) (_closing popup) n
    (_maskAnimation popup) (_maskAnimatable popup) (fields popup).

Definition set_maskAnimation (popup : Popup) (v : Value) : Popup :=
  mkPopup (id popup) (_orderId popup) (_closing popup) (_maskDelay popup)
    v (_maskAnimatable popup) (fields popup).

Abbreviation Registry := (list (string * Popup)).

Record Props := mkProps {
  maskColor : string;
  maskAnimatable : bool
}.

Definition defaultProps : Props := mkProps "rgba(23,26,35,0.6)" false.

(** ** What lies outside [PopupStub.js]

    The modules the controller imports from [./util] and the conversion of
    strings to numbers of the host language. *)

Class Collaborators := {
  createPopup : Value -> gmap string Value -> Props -> Popup;
  reverseKeyframes : Value -> Value;
  isFunction : Value -> bool;
  StringToNumber : string -> Number
}.

(** ** The controller and what it does to the outside *)

Inductive Event :=
| Commit (popups : Registry)         (* [setState] applied: this is [this.state.popups] now *)
| Call (f : Value)                   (* a lifecycle callback is invoked *)
| SetTimeout (f : Fn) (ms : Value).  (* a timer is started *)

Record World := mkWorld {
  stub : bool;          (* [PopupStub._stub] refers to the mounted controller *)
  orderId : Z;          (* [PopupStub._orderId] *)
  props : Props;        (* [this.props] *)
  popups : Registry;    (* [this.state.popups] *)
  trace : list Event    (* oldest first *)
}.

Definition mounted (p : Props) : World := mkWorld false 0 p [] [].

(* the [Map] in the state is changed in place *)
Definition mutate (ps : Registry) (w : World) : World :=
  mkWorld (stub w) (orderId w) (props w) ps (trace w).

Definition emit (evs : list Event) (w : World) : World :=
  mkWorld (stub w) (orderId w) (props w) (popups w) (trace w ++ evs).

(* [this.setState({popups: ps}, callback)] *)
Definition setState (ps : Registry) (callback : list Event) (w : World) : World :=
  emit (Commit ps :: callback) (mutate ps w).

(* [static init (_ref)] and the setter of [PopupStub.stub] *)
Definition set_stub (b : bool) (w : World) : World :=
  mkWorld b (orderId w) (props w) (popups w) (trace w).

Definition init (_ref : bool) (w : World) : World :=
  if _ref then set_stub true w else w.

Definition bump_orderId (w : World) : World :=
  mkWorld (stub w) (orderId w + 1) (props w) (popups w) (trace w).

Section Controller.
Context `{Collaborators}.

(* ToNumber *)
Definition ToNumber (v : Value) : Number :=
  match v with
  | VUndefined => NaN
  | VNull => Fin 0
  | VBool b => Fin (if b then 1 else 0)
  | VNum n => n
  | VStr s => StringToNumber s
  | VFun _ | VObj _ => NaN
  end.

Definition js_sub (a b : Value) : Number := number_sub (ToNumber a) (ToNumber b).
Definition js_div (a b : Value) : Number := number_div (ToNumber a) (ToNumber b).

(* [if (isFunction(f)) f()] *)
Definition call_if_function (f : Value) : list Event :=
  if isFunction f then [Call f] else [].

(* lines 294-313 *)
Definition removePopupImmediately (id : string) (w : World) : bool * World :=
  match map_get id (popups w) with
  | Some popup =>
      let onClosed := prop popup "onClosed" in
      let popups := map_delete id (popups w) in
      (true, setState popups (call_if_function onClosed) (mutate popups w))
  | None => (false, w)
  end.

(* lines 225-253: the record as it is left, and the timer if one is started *)
Definition _beforeClosing (popup : Popup) : Popup * list Event :=
  let id := id popup in
  let popup := set_prop popup "delay" (VNum (Fin 0)) in
  let popup := set_closing popup true in
  let popup :=
    if _maskAnimatable popup
    then set_maskDelay
           (set_maskAnimation popup (reverseKeyframes (_maskAnimation popup)))
           (js_sub (prop popup "duration") (prop popup "maskDuration"))
    else popup in
  if negb (truthy (prop popup "closingAnimation")) && is_string (prop popup "animation")
  then
    let popup := set_prop popup "direction" (VStr "reverse") in
    let popup := set_prop popup "closingAnimation" (prop popup "animation") in
    (popup, [SetTimeout (RemoveNowFn id) (js_or (prop popup "duration") (VNum (Fin 100)))])
  else
    let popup :=
      set_prop popup "closingAnimation"
        (js_or (prop popup "closingAnimation") (reverseKeyframes (prop popup "animation"))) in
    (set_prop popup "onAnimationEnd" (VFun (RemoveNowFn id)), []).

(* lines 263-285 *)
Definition removePopup (id : string) (forceUpdate : bool) (w : World) : World :=
  if negb (nonempty id) || negb (stub w) then w
  else
    match map_get id (popups w) with
    | None => w
    | Some popup =>
        if _closing popup then w
        else if negb (truthy (prop popup "animation")) || negb (truthy (prop popup "visible"))
        then snd (removePopupImmediately id w)
        else
          let '(popup, timer) := _beforeClosing popup in
          let popups := map_set id popup (popups w) in
          let w := emit timer (mutate popups w) in
          if forceUpdate then setState popups [] w else w
    end.

(* lines 158-167 *)
Definition _sortPopups (popups : Registry) : Registry :=
  if (1 <? length popups)%nat
  then map_of_entries
         (sort (fun a b => js_sub (prop (snd a) "zIndex") (prop (snd b) "zIndex")) popups)
  else popups.

(* lines 190-200: the scan of the entries in order, up to the first match *)
Fixpoint evict (entries : Registry) (newPopup : Popup) (w : World) : Popup * World :=
  match entries with
  | [] => (newPopup, w)
  | (key, popup) :: rest =>
      if strict_eq (prop popup "zIndex") (prop newPopup "zIndex") && negb (_closing popup)
      then
        let half := js_div (prop popup "duration") (VNum (Fin 2)) in
        let newPopup := set_maskDelay newPopup half in
        let newPopup := set_prop newPopup "delay" (VNum half) in
        (newPopup, removePopup key false w)
      else evict rest newPopup w
  end.

(* [{_orderId: PopupStub._orderId++, ...option}] *)
Definition with_orderId (n : Z) (opts : gmap string Value) : gmap string Value :=
  opts ∪ {[ "_orderId" := VNum (Fin (inject_Z n)) ]}.

(* lines 186-218, once the record is built *)
Definition register (newPopup : Popup) (w : World) : string * World :=
  let '(newPopup, w) := evict (popups w) newPopup w in
  let popups := map_set (id newPopup) newPopup (popups w) in
  let w := mutate popups w in
  (id newPopup, setState (_sortPopups popups) (call_if_function (prop newPopup "onAdded")) w).

(* lines 177-219; [None] is [undefined] *)
Definition addPopup (element : Value) (opts : gmap string Value) (w : World)
  : option string * World :=
  if negb (truthy element) || negb (stub w) then (None, w)
  else
    let opts := with_orderId (orderId w) opts in
    let w := bump_orderId w in
    let newPopup := createPopup element opts (props w) in
    let '(id, w) := register newPopup w in
    (Some id, w).

(* lines 323-333 *)
Definition resetPopupProperty (id key : string) (value : Value) (w : World) : World :=
  if negb (nonempty id) || negb (nonempty key) || String.eqb key "id"
     || bool_decide (String.get 0 key = Some "_"%char)
  then w
  else
    match map_get id (popups w) with
    | Some popup =>
        if hasOwnProperty popup key
        then
          let popups := map_set id (set_prop popup key value) (popups w) in
          setState popups [] (mutate popups w)
        else w
    | None => w
    end.

(* lines 341-374; [None] is a [filter] that is not a function *)
Definition removeAll (filter : option (Popup -> bool)) (w : World) : World :=
  if (length (popups w) =? 0)%nat then w
  else
    match filter with
    | Some filter =>
        let values := map_values (popups w) in
        let funclist :=
          map (fun o => prop o "onClosed")
            (List.filter (fun o => filter o && isFunction (prop o "onClosed")) values) in
        let kept := List.filter (fun o => negb (filter o)) values in
        let popups := map_of_entries (map (fun popup => (id popup, popup)) kept) in
        setState popups (map Call funclist) w
    | None =>
        let funclist :=
          map (fun o => prop o "onClosed")
            (List.filter (fun o => isFunction (prop o "onClosed")) (map_values (popups w))) in
        setState [] (map Call funclist) w
    end.

(** *** The back button, lines 122-155 *)

Definition eligible (popup : Popup) : bool :=
  negb (_closing popup || negb (truthy (prop popup "visible"))).

Definition back_order (a b : Popup) : Number :=
  if _closing b || negb (truthy (prop b "visible")) then Fin 1
  else if _closing a || negb (truthy (prop a "visible")) then Fin (-1)
  else Fin (inject_Z (_orderId a - _orderId b)).

Inductive BackResult :=
| Returned (handled : bool) (w : World)
| Delegated (onPressBack : Value) (id : string) (w : World).
    (* [return popup.onPressBack(popup.id)] *)

Definition _onBackAndroid (w : World) : BackResult :=
  if (length (popups w) =? 0)%nat then Returned false w
  else
    match pop (sort back_order (map_values (popups w))) with
    | None => Returned false w
    | Some popup =>
        if _closing popup || negb (truthy (prop popup "visible")) then Returned false w
        else if truthy (prop popup "autoClose") && truthy (prop popup "visible")
        then Returned true (removePopup (id popup) true w)
        else Delegated (prop popup "onPressBack") (id popup) w
    end.

(** *** The static facade, lines 49-98 *)

Inductive Outcome (A : Type) :=
| Done (result : A) (w : World)
| TypeError.                       (* a property of [null] is read *)
Arguments Done {A} result w.
Arguments TypeError {A}.

Definition static_isShow (filter : Popup -> bool) (w : World) : Outcome bool :=
  if negb (stub w) then Done false w
  else Done (existsb (fun popup => truthy (prop popup "visible") && filter popup)
               (map_values (popups w))) w.

Definition static_addPopup (element : Value) (opts : gmap string Value) (w : World)
  : Outcome (option string) :=
  if truthy element && stub w
  then let '(r, w) := addPopup element opts w in Done r w
  else Done None w.

Definition static_removePopup (id : string) (forceUpdate : bool) (w : World) : Outcome unit :=
  if nonempty id && stub w then Done tt (removePopup id forceUpdate w) else Done tt w.

Definition static_removePopupImmediately (id : string) (w : World) : Outcome bool :=
  if nonempty id && stub w
  then let '(r, w) := removePopupImmediately id w in Done r w
  else Done false w.

Definition static_resetPopupProperty (id key : string) (value : Value) (w : World)
  : Outcome unit :=
  if nonempty id && stub w then Done tt (resetPopupProperty id key value w) else Done tt w.

Definition static_removeAll (filter : option (Popup -> bool)) (w : World) : Outcome unit :=
  if stub w then Done tt (removeAll filter w) else TypeError.
End Controller.

Arguments Done {A} result w.
Arguments TypeError {A}.

(** ** Sequences of operations *)

Inductive Op :=
| Init (_ref : bool)
| AddPopup (element : Value) (opts : gmap string Value)
| RemovePopup (id : string) (forceUpdate : bool)
| RemovePopupImmediately (id : string)
| ResetPopupProperty (id key : string) (value : Value)
| RemoveAll (filter : option (Popup -> bool))
| BackAndroid.

Definition back_world (r : BackResult) : World :=
  match r with
  | Returned _ w => w
  | Delegated _ _ w => w
  end.

Section Runs.
Context `{Collaborators}.

Definition step (op : Op) (w : World) : World :=
  match op with
  | Init _ref => init _ref w
  | AddPopup element opts => snd (addPopup element opts w)
  | RemovePopup id forceUpdate => removePopup id forceUpdate w
  | RemovePopupImmediately id => snd (removePopupImmediately id w)
  | ResetPopupProperty id key value => resetPopupProperty id key value w
  | RemoveAll filter => removeAll filter w
  | BackAndroid => back_world (_onBackAndroid w)
  end.

Definition run (ops : list Op) (w : World) : World :=
  fold_left (fun w op => step op w) ops w.

(* the [_orderId] of the options handed to the factory by each call of
   [addPopup] that gets past its guard, oldest first *)
Fixpoint assigned_orderIds (ops : list Op) (w : World) : list Value :=
  match ops with
  | [] => []
  | op :: ops' =>
      match op with
      | AddPopup element opts =>
          if negb (truthy element) || negb (stub w) then []
          else [default VUndefined (with_orderId (orderId w) opts !! "_orderId")]
      | _ => []
      end ++ assigned_orderIds ops' (step op w)
  end.




End Runs.

(** ** Properties of a registry *)

(* every record sits under its own id, and only there *)
Definition keyed_by_id (m : Registry) : Prop :=
  NoDup (map_keys m) /\ forall k p, In (k, p) m -> id p = k.



(* whether the scan of [addPopup] stops at this record *)
Definition collides (newPopup popup : Popup) : bool :=
  strict_eq (prop popup "zIndex") (prop newPopup "zIndex") && negb (_closing popup).

(* the newcomer as the scan of [addPopup] leaves it after a match *)
Definition delayed `{Collaborators} (newPopup evicted : Popup) : Popup :=
  let half := js_div (prop evicted "duration") (VNum (Fin 2)) in
  set_prop (set_maskDelay newPopup half) "delay" (VNum half).

(* the calls of [onClosed] owed to the given records, in their order *)
Definition closed_calls `{Collaborators} (records : list Popup) : list Event :=
  flat_map (fun o => call_if_function (prop o "onClosed")) records.

(* the order ids of the counter, as the factory receives them *)
Definition number_of (n : Z) : Value := VNum (Fin (inject_Z n)).

(* the head of the sorted prefix, seen from its right end, is an eligible
   record of highest [_orderId] as soon as the prefix has an eligible one *)
Definition top_first (prefix : list Popup) : Prop :=
  match prefix with
  | [] => True
  | top :: _ =>
      forall p, In p prefix -> eligible p = true ->
                eligible top = true /\ (_orderId p <= _orderId top)%Z
  end.

(** ** Stand-ins for the collaborators, for running the controller

    A factory that lays the options over defaults, a keyframe reversal that
    marks its argument, [typeof f === 'function'], and a conversion that
    reads decimal digits. *)

Definition sample_defaults : gmap string Value :=
  {[ "zIndex" := VNum (Fin 1);
     "visible" := VBool true;
     "autoClose" := VBool true;
     "duration" := VNum (Fin 300);
     "maskDuration" := VNum (Fin 100);
     "delay" := VNum (Fin 0);
     "onPressBack" := VFun (UserFn "falseValue") ]}.

Definition sample_createPopup (element : Value) (opts : gmap string Value) (p : Props) : Popup :=
  mkPopup
    (match opts !! "id" with Some (VStr s) => s | _ => "uuid" end)
    (match opts !! "_orderId" with Some (VNum (Fin q)) => Qfloor q | _ => 0 end)
    false (Fin 0)
    (VObj "fade") (maskAnimatable p)
    (delete "_orderId" (delete "id" opts) ∪ sample_defaults).

Definition sample_reverseKeyframes (v : Value) : Value :=
  match v with
  | VObj h => VObj (String.append "reversed " h)
  | _ => v
  end.

Definition sample_isFunction (v : Value) : bool :=
  match v with VFun _ => true | _ => false end.

Fixpoint digits (s : string) (acc : Z) : option Z :=
  match s with
  | EmptyString => Some acc
  | String c s' =>
      let n := (Z.of_N (N_of_ascii c) - 48)%Z in
      if (0 <=? n)%Z && (n <=? 9)%Z then digits s' (10 * acc + n)%Z else None
  end.

Definition sample_StringToNumber (s : string) : Number :=
  match digits s 0 with Some n => Fin (inject_Z n) | None => NaN end.

Definition sample : Collaborators :=
  Build_Collaborators sample_createPopup sample_reverseKeyframes
    sample_isFunction sample_StringToNumber.

(** ** Sample records, controllers and runs *)

Definition popup_of (opts : list (string * Value)) : Popup :=
  sample_createPopup (VObj "element") (list_to_map opts) defaultProps.

(* a controller that is mounted and registered, with nothing shown *)
Definition ready : World := init true (mounted defaultProps).

(* a controller that shows the given records *)
Definition showing (records : list Popup) : World :=
  mutate (map (fun popup => (id popup, popup)) records) ready.

(* a record with no animation: visible, not closing *)
Definition plain_popup (id : string) : Popup := popup_of [("id", VStr id)].

(* a record that is already closing, with a close handler *)
Definition closing_popup : Popup :=
  set_closing
    (popup_of [("id", VStr "a"); ("animation", VStr "fadeIn");
               ("onClosed", VFun (UserFn "bye"))]) true.

(* a record whose options carry a property with the empty name *)
Definition odd_popup : Popup := popup_of [("id", VStr "a"); ("", VNum (Fin 1))].

(* an animated record on layer 1 *)
Definition sheet : Popup :=
  popup_of [("id", VStr "sheet"); ("animation", VStr "slideUp");
            ("duration", VNum (Fin 250))].

(* records on layer 9 with a close handler, and the filter that picks them *)
Definition toast (id : string) : Popup :=
  popup_of [("id", VStr id); ("zIndex", VNum (Fin 9));
            ("onClosed", VFun (UserFn (String.append "closed " id)))].

Definition is_toast (popup : Popup) : bool :=
  strict_eq (prop popup "zIndex") (VNum (Fin 9)).

(* three visible records with order ids 1, 3 and 2; only the last one closes
   on its own *)
Definition ordered (id : string) (n : Z) (autoClose : bool) : Popup :=
  popup_of [("id", VStr id); ("_orderId", number_of n);
            ("zIndex", number_of n); ("autoClose", VBool autoClose)].

Definition three_shown : World :=
  showing [ordered "p1" 1 false; ordered "p3" 3 false; ordered "p2" 2 true].




(** ** Rendering and the tap on a mask, lines 376-405

    [animatedPopup] wraps a record into a node; the view is given by the
    records handed to it, in order. *)

Record View := mkView {
  pointerEvents : string;
  children : list Popup
}.

Definition render (w : World) : View :=
  let rendered :=
    List.filter (fun popup => truthy (prop popup "visible")) (map_values (popups w)) in
  let hasMask := (0 <? length rendered)%nat in
  mkView (if hasMask then "box-none" else "none") rendered.

(* lines 401-405; [None] is a falsy argument *)
Definition onAutoClose `{Collaborators} (popup : option Popup) (w : World) : Outcome unit :=
  match popup with
  | Some popup =>
      if truthy (prop popup "autoClose") && negb (_closing popup)
      then static_removePopup (id popup) true w
      else Done tt w
  | None => Done tt w
  end.

(* the world an outcome leaves, where there is one *)
Definition outcome_world {A} (o : Outcome A) : option World :=
  match o with
  | Done _ w => Some w
  | TypeError => None
  end.

(** ** Layers *)

(* the record has a finite number as [zIndex] *)
Definition numeric (popup : Popup) : bool :=
  match prop popup "zIndex" with
  | VNum (Fin _) => true
  | _ => false
  end.

(* [a] lies on the layer of [b] or below it *)
Definition zIndex_le (a b : Popup) : Prop :=
  match prop a "zIndex", prop b "zIndex" with
  | VNum (Fin x), VNum (Fin y) => (x <= y)%Q
  | _, _ => False
  end.


(* the comparator of [_sortPopups] *)
Definition by_zIndex `{Collaborators} (a b : string * Popup) : Number :=
  js_sub (prop (snd a) "zIndex") (prop (snd b) "zIndex").

(* the properties [_beforeClosing] writes *)
Definition closing_keys : list string :=
  ["delay"; "direction"; "closingAnimation"; "onAnimationEnd"].

(* a registry for the layer facts: a late toast, two sheets on one layer
   and an early alert *)
Definition unsorted : Registry :=
  [("t", toast "t"); ("s1", ordered "s1" 2 true); ("a", plain_popup "a");
   ("s2", ordered "s2" 2 false)].

(** ** Runs that do not reuse an id *)

(* no open record is registered under [k] *)
Definition none_open (k : string) (m : Registry) : Prop :=
  forall p, map_get k m = Some p -> _closing p = true.


Section Reuse.
Context `{Collaborators}.

(* whether the call registers a record under [k] *)
Definition reuses (k : string) (op : Op) (w : World) : bool :=
  match op with
  | AddPopup element opts =>
      negb (negb (truthy element) || negb (stub w))
      && String.eqb (id (createPopup element (with_orderId (orderId w) opts) (props w))) k
  | _ => false
  end.

Fixpoint never_reuses (k : string) (ops : list Op) (w : World) : bool :=
  match ops with
  | [] => true
  | op :: ops' => negb (reuses k op w) && never_reuses k ops' (step op w)
  end.
End Reuse.

(** * Facts about [Map] *)

Section JSMapFacts.
Context {V : Type}.
Implicit Types (m : list (string * V)) (k : string) (v : V).

Lemma map_get_In k v m : map_get k m = Some v -> In (k, v) m.
Proof.
  induction m as [|[k' v'] m IH]; simpl; [discriminate|].
  destruct (String.eqb_spec k k') as [->|Hne].
  - intros [= ->]. now left.
  - intros Hg. right. now apply IH.
Qed.

Lemma map_get_None k m : map_get k m = None <-> ~ In k (map_keys m).
Proof.
  induction m as [|[k' v'] m IH]; simpl.
  - split; [intros _ []|reflexivity].
  - destruct (String.eqb_spec k k') as [->|Hne].
    + split; [discriminate|]. intros Hn. exfalso. apply Hn. now left.
    + rewrite IH. split.
      * intros Hn [He|Hi]; [now apply Hne|now apply Hn].
      * intros Hn Hi. apply Hn. now right.
Qed.

Lemma In_map_get k v m : NoDup (map_keys m) -> In (k, v) m -> map_get k m = Some v.
Proof.
  induction m as [|[k' v'] m IH]; simpl; [intros _ []|].
  intros Hnd [He|Hi].
  - injection He as -> ->. now rewrite String.eqb_refl.
  - apply NoDup_cons in Hnd as [Hk Hnd].
    destruct (String.eqb_spec k k') as [->|Hne].
    + exfalso. apply Hk. apply list_elem_of_In.
      change k' with (fst (k', v)). now apply in_map.
    + now apply IH.
Qed.

Lemma map_get_set_eq k v m : map_get k (map_set k v m) = Some v.
Proof.
  induction m as [|[k' v'] m IH]; simpl.
  - now rewrite String.eqb_refl.
  - destruct (String.eqb_spec k k') as [->|Hne]; simpl.
    + now rewrite String.eqb_refl.
    + destruct (String.eqb_spec k k'); [contradiction|exact IH].
Qed.

Lemma map_get_set_ne k k' v m : k <> k' -> map_get k' (map_set k v m) = map_get k' m.
Proof.
  intros Hne. induction m as [|[k0 v0] m IH]; simpl.
  - destruct (String.eqb_spec k' k); [congruence|reflexivity].
  - destruct (String.eqb_spec k k0) as [->|Hk]; simpl.
    + destruct (String.eqb_spec k' k0); [congruence|reflexivity].
    + destruct (String.eqb_spec k' k0); [reflexivity|exact IH].
Qed.

Lemma map_keys_set_present k v m :
  In k (map_keys m) -> map_keys (map_set k v m) = map_keys m.
Proof.
  induction m as [|[k' v'] m IH]; simpl; [intros []|].
  destruct (String.eqb_spec k k') as [->|Hne]; simpl; [reflexivity|].
  intros [He|Hi]; [congruence|]. f_equal. now apply IH.
Qed.

Lemma map_set_absent k v m : ~ In k (map_keys m) -> map_set k v m = m ++ [(k, v)].
Proof.
  induction m as [|[k' v'] m IH]; simpl; [reflexivity|].
  intros Hn. destruct (String.eqb_spec k k') as [->|Hne].
  - exfalso. apply Hn. now left.
  - f_equal. apply IH. intros Hi. apply Hn. now right.
Qed.

Lemma In_map_set k v k0 v0 m :
  In (k0, v0) (map_set k v m) -> (k0 = k /\ v0 = v) \/ In (k0, v0) m.
Proof.
  induction m as [|[k' v'] m IH]; simpl.
  - intros [[= <- <-]|[]]. now left.
  - destruct (String.eqb_spec k k') as [->|Hne]; simpl.
    + intros [[= <- <-]|Hi]; [now left|right; now right].
    + intros [He|Hi]; [right; now left|].
      destruct (IH Hi) as [Hl|Hin]; [now left|right; now right].
Qed.


Lemma map_keys_set k v m :
  map_keys (map_set k v m) = if map_has k m then map_keys m else map_keys m ++ [k].
Proof.
  unfold map_has. induction m as [|[k' v'] m IH]; simpl; [reflexivity|].
  destruct (String.eqb_spec k k') as [->|Hne]; simpl; [reflexivity|].
  rewrite IH. now destruct (map_get k m).
Qed.

Lemma map_has_keys k m : map_has k m = true <-> In k (map_keys m).
Proof.
  unfold map_has. destruct (map_get k m) eqn:Hg.
  - split; [intros _|reflexivity]. apply map_get_In in Hg.
    change k with (fst (k, v)). now apply in_map.
  - apply map_get_None in Hg. split; [discriminate|contradiction].
Qed.

Lemma NoDup_map_set k v m : NoDup (map_keys m) -> NoDup (map_keys (map_set k v m)).
Proof.
  intros Hnd. rewrite map_keys_set. destruct (map_has k m) eqn:Hh; [assumption|].
  apply NoDup_app. repeat split; [assumption| |apply NoDup_singleton].
  intros x Hx Hk. apply list_elem_of_singleton in Hk as ->.
  apply list_elem_of_In, map_has_keys in Hx. congruence.
Qed.

Lemma In_map_delete k k0 v0 m :
  In (k0, v0) (map_delete k m) <-> In (k0, v0) m /\ k0 <> k.
Proof.
  unfold map_delete. rewrite filter_In. simpl.
  destruct (String.eqb_spec k k0) as [->|Hne]; simpl; split.
  - intros [_ [=]].
  - intros [_ Hn]. contradiction.
  - intros [Hi _]. split; [assumption|congruence].
  - intros [Hi _]. now split.
Qed.

Lemma map_keys_delete k m :
  map_keys (map_delete k m) = List.filter (fun k' => negb (String.eqb k k')) (map_keys m).
Proof.
  induction m as [|[k' v'] m IH]; simpl; [reflexivity|].
  destruct (String.eqb k k'); simpl; [exact IH|now f_equal].
Qed.

Lemma NoDup_filter_bool {A} (f : A -> bool) (l : list A) :
  NoDup l -> NoDup (List.filter f l).
Proof.
  induction 1 as [|x l Hx Hnd IH]; simpl; [constructor|].
  destruct (f x); [|assumption].
  constructor; [|assumption]. rewrite list_elem_of_In, filter_In.
  intros [Hi _]. now apply Hx, list_elem_of_In.
Qed.

Lemma NoDup_map_delete k m : NoDup (map_keys m) -> NoDup (map_keys (map_delete k m)).
Proof. rewrite map_keys_delete. apply NoDup_filter_bool. Qed.

Lemma map_get_delete_eq k m : map_get k (map_delete k m) = None.
Proof.
  apply map_get_None. rewrite map_keys_delete, filter_In.
  intros [_ Hk]. now rewrite String.eqb_refl in Hk.
Qed.

Lemma map_get_delete_ne k k' m : k <> k' -> map_get k' (map_delete k m) = map_get k' m.
Proof.
  intros Hne. induction m as [|[k0 v0] m IH]; simpl; [reflexivity|].
  destruct (String.eqb_spec k k0) as [->|Hk]; simpl.
  - destruct (String.eqb_spec k' k0); [congruence|exact IH].
  - destruct (String.eqb_spec k' k0); [reflexivity|exact IH].
Qed.


(* with one entry per key, [new Map(entries)] holds the entries as they come *)
Lemma map_of_entries_fold (entries acc : list (string * V)) :
  NoDup (map_keys (acc ++ entries)) ->
  fold_left (fun m kv => map_set (fst kv) (snd kv) m) entries acc = acc ++ entries.
Proof.
  revert acc. induction entries as [|[k v] entries IH]; intros acc Hnd; simpl.
  - now rewrite app_nil_r.
  - rewrite map_set_absent.
    + rewrite IH; rewrite <- app_assoc; [reflexivity|exact Hnd].
    + unfold map_keys in Hnd. rewrite map_app in Hnd. simpl in Hnd.
      apply NoDup_app in Hnd as (_ & Hd & _).
      intros Hi. apply (Hd k); [now apply list_elem_of_In|left].
Qed.

Lemma map_of_entries_NoDup (entries : list (string * V)) :
  NoDup (map_keys entries) -> map_of_entries entries = entries.
Proof. intros Hnd. unfold map_of_entries. now rewrite map_of_entries_fold. Qed.

Lemma map_get_Permutation k m m' :
  NoDup (map_keys m) -> Permutation m m' -> map_get k m' = map_get k m.
Proof.
  intros Hnd Hp.
  assert (Hnd' : NoDup (map_keys m')).
  { unfold map_keys. rewrite <- Hp. exact Hnd. }
  destruct (map_get k m) eqn:Hg.
  - apply In_map_get; [assumption|]. apply map_get_In in Hg.
    apply list_elem_of_In. rewrite <- Hp. now apply list_elem_of_In.
  - apply map_get_None. apply map_get_None in Hg. intros Hi. apply Hg.
    apply list_elem_of_In. unfold map_keys. rewrite Hp. now apply list_elem_of_In.
Qed.
End JSMapFacts.

(** * Facts about [sort] *)

Section SortFacts.
Context {A : Type} (comparefn : A -> A -> Number).

Lemma place_Permutation x (l : list A) : Permutation (place comparefn x l) (x :: l).
Proof.
  induction l as [|y l IH]; simpl; [reflexivity|].
  destruct (positive (comparefn y x)); [|reflexivity].
  rewrite IH. apply perm_swap.
Qed.

Lemma sort_rev_Permutation (l acc : list A) :
  Permutation (fold_left (fun prefix element => place comparefn element prefix) l acc)
    (acc ++ l).
Proof.
  revert acc. induction l as [|x l IH]; intros acc; simpl.
  - now rewrite app_nil_r.
  - rewrite IH, place_Permutation. simpl. apply Permutation_middle.
Qed.

Lemma sort_Permutation (l : list A) : Permutation (sort comparefn l) l.
Proof.
  unfold sort, sort_rev. rewrite <- Permutation_rev.
  exact (sort_rev_Permutation l []).
Qed.
End SortFacts.

(** * The registry after sorting *)

Section SortPopupsFacts.
Context `{Collaborators}.

Lemma sortPopups_Permutation (m : Registry) :
  NoDup (map_keys m) -> Permutation (_sortPopups m) m.
Proof.
  intros Hnd. unfold _sortPopups. destruct (1 <? length m)%nat; [|reflexivity].
  rewrite map_of_entries_NoDup; [apply sort_Permutation|].
  unfold map_keys. now rewrite sort_Permutation.
Qed.

Lemma sortPopups_NoDup (m : Registry) :
  NoDup (map_keys m) -> NoDup (map_keys (_sortPopups m)).
Proof.
  intros Hnd. unfold map_keys. now rewrite sortPopups_Permutation.
Qed.

Lemma map_get_sortPopups k (m : Registry) :
  NoDup (map_keys m) -> map_get k (_sortPopups m) = map_get k m.
Proof.
  intros Hnd. apply map_get_Permutation; [assumption|].
  symmetry. now apply sortPopups_Permutation.
Qed.

Lemma In_sortPopups e (m : Registry) :
  NoDup (map_keys m) -> In e (_sortPopups m) <-> In e m.
Proof.
  intros Hnd. rewrite <- !list_elem_of_In. now rewrite sortPopups_Permutation.
Qed.
End SortPopupsFacts.

(** * Removal *)

Section Removal.
Context `{Collaborators}.

Lemma removePopupImmediately_present id popup w :
  map_get id (popups w) = Some popup ->
  removePopupImmediately id w =
    (true, mkWorld (stub w) (orderId w) (props w) (map_delete id (popups w))
             (trace w ++ Commit (map_delete id (popups w))
                :: call_if_function (prop popup "onClosed"))).
Proof. intros Hg. unfold removePopupImmediately. now rewrite Hg. Qed.

Lemma removePopupImmediately_absent id w :
  map_get id (popups w) = None -> removePopupImmediately id w = (false, w).
Proof. intros Hg. unfold removePopupImmediately. now rewrite Hg. Qed.

Lemma removePopup_guarded id forceUpdate w :
  nonempty id = false \/ stub w = false -> removePopup id forceUpdate w = w.
Proof. unfold removePopup. now intros [-> | ->]; rewrite ?orb_true_r. Qed.

Lemma removePopup_absent id forceUpdate w :
  map_get id (popups w) = None -> removePopup id forceUpdate w = w.
Proof.
  intros Hg. unfold removePopup. rewrite Hg.
  now destruct (negb (nonempty id) || negb (stub w)).
Qed.

Lemma removePopup_closing id forceUpdate popup w :
  map_get id (popups w) = Some popup -> _closing popup = true ->
  removePopup id forceUpdate w = w.
Proof.
  intros Hg Hc. unfold removePopup. rewrite Hg, Hc.
  now destruct (negb (nonempty id) || negb (stub w)).
Qed.

Lemma removePopup_immediate id forceUpdate popup w :
  nonempty id = true -> stub w = true ->
  map_get id (popups w) = Some popup -> _closing popup = false ->
  truthy (prop popup "animation") = false \/ truthy (prop popup "visible") = false ->
  removePopup id forceUpdate w = snd (removePopupImmediately id w).
Proof.
  intros Hid Hs Hg Hc Hav. unfold removePopup. rewrite Hid, Hs, Hg, Hc. simpl.
  now destruct Hav as [-> | ->]; rewrite ?orb_true_r.
Qed.
End Removal.

(** C4: [removePopupImmediately(id)] returns true exactly when a record is
    registered under [id]. When one is, whatever its [_closing] flag, the
    registry loses that entry and nothing else, and the only things that
    happen are the commit of the registry without [id] followed by the call
    of the record's [onClosed] if it is a function: once, after the commit.
    When none is, the call returns false and changes nothing. *)
Theorem removePopupImmediately_deletes_then_calls `{Collaborators} (id : string) (w : World) :
  (fst (removePopupImmediately id w) = true <->
     exists popup, map_get id (popups w) = Some popup) /\
  (forall popup, map_get id (popups w) = Some popup ->
     let w' := snd (removePopupImmediately id w) in
     fst (removePopupImmediately id w) = true /\
     popups w' = map_delete id (popups w) /\
     map_get id (popups w') = None /\
     trace w' = trace w ++ Commit (popups w') :: call_if_function (prop popup "onClosed") /\
     (isFunction (prop popup "onClosed") = true ->
        trace w' = trace w ++ [Commit (popups w'); Call (prop popup "onClosed")])) /\
  (map_get id (popups w) = None -> removePopupImmediately id w = (false, w)).
Proof.
  split; [|split].
  - destruct (map_get id (popups w)) as [popup|] eqn:Hg.
    + rewrite (removePopupImmediately_present _ _ _ Hg). simpl.
      split; [eauto|reflexivity].
    + rewrite (removePopupImmediately_absent _ _ Hg). simpl.
      split; [discriminate|]. now intros [popup [=]].
  - intros popup Hg. rewrite (removePopupImmediately_present _ _ _ Hg). simpl.
    repeat split; [apply map_get_delete_eq|].
    intros Hf. unfold call_if_function. now rewrite Hf.
  - apply removePopupImmediately_absent.
Qed.

Lemma removePopupImmediately_deletes_then_calls_witness :
  trace (snd (@removePopupImmediately sample "a" (showing [closing_popup]))) =
    [Commit []; Call (VFun (UserFn "bye"))].
Proof.
  apply (proj2 (proj2 (proj2 (proj2
           (proj1 (proj2 (@removePopupImmediately_deletes_then_calls sample "a"
                            (showing [closing_popup])))
              closing_popup eq_refl))))).
  reflexivity.
Defined.

(** C1, as amended: [removePopup(id, forceUpdate)] changes nothing when no
    record is registered under [id] or when that record is already closing.
    When [id] is not empty, the controller is the registered stub, and the
    record under [id] is not closing and has no animation or is not visible,
    the call deletes the entry at once: the registry is the old one without
    [id], no record is marked as closing, and the one commit of the call
    shows the registry without [id]. *)
Theorem removePopup_noop_or_immediate `{Collaborators}
    (id : string) (forceUpdate : bool) (w : World) :
  (map_get id (popups w) = None -> removePopup id forceUpdate w = w) /\
  (forall popup, map_get id (popups w) = Some popup -> _closing popup = true ->
     removePopup id forceUpdate w = w) /\
  (forall popup,
     nonempty id = true -> stub w = true ->
     map_get id (popups w) = Some popup -> _closing popup = false ->
     truthy (prop popup "animation") = false \/ truthy (prop popup "visible") = false ->
     let w' := removePopup id forceUpdate w in
     popups w' = map_delete id (popups w) /\
     map_get id (popups w') = None /\
     (forall k p, In (k, p) (popups w') -> In (k, p) (popups w)) /\
     trace w' = trace w ++ Commit (map_delete id (popups w))
                  :: call_if_function (prop popup "onClosed")).
Proof.
  split; [apply removePopup_absent|split; [intros popup; apply removePopup_closing|]].
  intros popup Hid Hs Hg Hc Hav.
  rewrite (removePopup_immediate _ forceUpdate _ _ Hid Hs Hg Hc Hav).
  rewrite (removePopupImmediately_present _ _ _ Hg). simpl.
  repeat split; [apply map_get_delete_eq|].
  intros k p Hi. now apply In_map_delete in Hi.
Qed.

Lemma removePopup_noop_or_immediate_witness :
  popups (@removePopup sample "a" true (showing [plain_popup "a"; plain_popup "b"])) =
    [("b", plain_popup "b")].
Proof.
  apply (proj2 (proj2 (@removePopup_noop_or_immediate sample "a" true
                         (showing [plain_popup "a"; plain_popup "b"])))
           (plain_popup "a")); try reflexivity.
  left. reflexivity.
Defined.

(** C1, as stated, fails where the guard of line 264 returns first: a record
    registered under the empty id, and a controller that is not the
    registered stub, keep a record that is neither closing nor animated. *)
Lemma removePopup_guard_keeps_record :
  (stub (showing [plain_popup ""]) = true /\
   map_get "" (popups (showing [plain_popup ""])) = Some (plain_popup "") /\
   _closing (plain_popup "") = false /\
   truthy (prop (plain_popup "") "animation") = false /\
   map_get "" (popups (@removePopup sample "" true (showing [plain_popup ""])))
     = Some (plain_popup "")) /\
  (stub (set_stub false (showing [plain_popup "a"])) = false /\
   map_get "a" (popups (set_stub false (showing [plain_popup "a"]))) = Some (plain_popup "a") /\
   _closing (plain_popup "a") = false /\
   truthy (prop (plain_popup "a") "animation") = false /\
   map_get "a" (popups (@removePopup sample "a" true
                          (set_stub false (showing [plain_popup "a"]))))
     = Some (plain_popup "a")).
Proof. repeat split. Qed.

(** * Resetting a property *)

Section Reset.

Lemma resetPopupProperty_sets id key value popup w :
  nonempty id = true -> nonempty key = true -> key <> "id" ->
  String.get 0 key <> Some "_"%char ->
  map_get id (popups w) = Some popup -> hasOwnProperty popup key = true ->
  resetPopupProperty id key value w =
    mkWorld (stub w) (orderId w) (props w)
      (map_set id (set_prop popup key value) (popups w))
      (trace w ++ [Commit (map_set id (set_prop popup key value) (popups w))]).
Proof.
  intros Hid Hkey Hk Hu Hg Ho. unfold resetPopupProperty.
  rewrite Hid, Hkey, Hg, Ho. simpl.
  destruct (String.eqb_spec key "id"); [contradiction|].
  now rewrite bool_decide_eq_false_2.
Qed.

Lemma resetPopupProperty_cases id key value w :
  resetPopupProperty id key value w = w \/
  exists popup,
    map_get id (popups w) = Some popup /\
    resetPopupProperty id key value w =
      mkWorld (stub w) (orderId w) (props w)
        (map_set id (set_prop popup key value) (popups w))
        (trace w ++ [Commit (map_set id (set_prop popup key value) (popups w))]).
Proof.
  unfold resetPopupProperty.
  destruct (negb (nonempty id) || negb (nonempty key) || String.eqb key "id"
            || bool_decide (String.get 0 key = Some "_"%char)); [now left|].
  destruct (map_get id (popups w)) as [popup|] eqn:Hg; [|now left].
  destruct (hasOwnProperty popup key); [|now left].
  right. now exists popup.
Qed.
End Reset.

(** C9, as amended: [resetPopupProperty(id, key, value)] changes nothing and
    commits nothing when [id] or [key] is empty, [key] is ['id'], [key]
    starts with an underscore, no record is registered under [id], or [key]
    is not an own property of the record. Otherwise the record's [key] is
    set to [value] and the registry is committed once. So a reset of ['id']
    or of ['_closing'] never changes anything, and a reset of ['zIndex'] to 5
    under a non-empty id whose record has a [zIndex] sets it. *)
Theorem resetPopupProperty_guarded_overwrite
    (id key : string) (value : Value) (w : World) :
  (nonempty id = false \/ nonempty key = false \/ key = "id" \/
   String.get 0 key = Some "_"%char \/ map_get id (popups w) = None \/
   (exists popup, map_get id (popups w) = Some popup /\ hasOwnProperty popup key = false) ->
   resetPopupProperty id key value w = w) /\
  (forall popup,
     nonempty id = true -> nonempty key = true -> key <> "id" ->
     String.get 0 key <> Some "_"%char ->
     map_get id (popups w) = Some popup -> hasOwnProperty popup key = true ->
     let w' := resetPopupProperty id key value w in
     map_get id (popups w') = Some (set_prop popup key value) /\
     prop (set_prop popup key value) key = value /\
     trace w' = trace w ++ [Commit (popups w')]) /\
  resetPopupProperty id "id" value w = w /\
  resetPopupProperty id "_closing" value w = w /\
  (forall popup,
     nonempty id = true ->
     map_get id (popups w) = Some popup -> hasOwnProperty popup "zIndex" = true ->
     let w' := resetPopupProperty id "zIndex" (VNum (Fin 5)) w in
     (exists popup', map_get id (popups w') = Some popup' /\
                     prop popup' "zIndex" = VNum (Fin 5)) /\
     trace w' = trace w ++ [Commit (popups w')]).
Proof.
  assert (Hset : forall popup k v, prop (set_prop popup k v) k = v).
  { intros popup k v. unfold prop, set_prop. simpl. now rewrite lookup_insert_eq. }
  repeat split.
  - unfold resetPopupProperty.
    intros [-> | [-> | [-> | [Hu | [Hg | (popup & Hg & Ho)]]]]];
      rewrite ?orb_true_r; try reflexivity.
    + rewrite (bool_decide_eq_true_2 _ Hu). now rewrite orb_true_r.
    + rewrite Hg. now destruct (_ || _).
    + rewrite Hg, Ho. now destruct (_ || _).
  - rewrite (resetPopupProperty_sets id key value popup w) by assumption.
    simpl. apply map_get_set_eq.
  - apply Hset.
  - now rewrite (resetPopupProperty_sets id key value popup w) by assumption.
  - unfold resetPopupProperty. simpl. now rewrite orb_true_r.
  - unfold resetPopupProperty. simpl. now rewrite orb_true_r.
  - rewrite (resetPopupProperty_sets id "zIndex" _ popup w) by (assumption || easy).
    simpl. exists (set_prop popup "zIndex" (VNum (Fin 5))).
    split; [apply map_get_set_eq|apply Hset].
  - now rewrite (resetPopupProperty_sets id "zIndex" _ popup w) by (assumption || easy).
Qed.

Lemma resetPopupProperty_guarded_overwrite_witness :
  map_get "a" (popups (resetPopupProperty "a" "zIndex" (VNum (Fin 5))
                         (showing [plain_popup "a"])))
    = Some (set_prop (plain_popup "a") "zIndex" (VNum (Fin 5))).
Proof.
  apply (proj1 (proj2 (resetPopupProperty_guarded_overwrite "a" "zIndex"
                         (VNum (Fin 5)) (showing [plain_popup "a"])))
           (plain_popup "a")); try reflexivity; discriminate.
Defined.

(** C9, as stated, fails where the guard of line 324 returns for an empty
    [id] or an empty [key]: the record is there, the key is an own property
    that is neither ['id'] nor private, and still nothing is set. *)
Lemma resetPopupProperty_guard_ignores_empty :
  (map_get "" (popups (showing [plain_popup ""])) = Some (plain_popup "") /\
   hasOwnProperty (plain_popup "") "zIndex" = true /\
   resetPopupProperty "" "zIndex" (VNum (Fin 5)) (showing [plain_popup ""])
     = showing [plain_popup ""]) /\
  (map_get "a" (popups (showing [odd_popup])) = Some odd_popup /\
   hasOwnProperty odd_popup "" = true /\
   resetPopupProperty "a" "" (VNum (Fin 5)) (showing [odd_popup])
     = showing [odd_popup]).
Proof. repeat split. Qed.

(** C10: [resetPopupProperty(id, key, value)] leaves the order of the
    registry's keys, every record under another key, and in the record under
    [id] every field and every property other than [key] as they were; the
    stub and the order counter stay too. No key is excepted, so a new
    [zIndex] moves no entry. *)
Theorem resetPopupProperty_frame
    (popupId key : string) (value : Value) (w : World) :
  let w' := resetPopupProperty popupId key value w in
  map_keys (popups w') = map_keys (popups w) /\
  (forall k, k <> popupId -> map_get k (popups w') = map_get k (popups w)) /\
  (forall popup, map_get popupId (popups w) = Some popup ->
     exists popup',
       map_get popupId (popups w') = Some popup' /\
       id popup' = id popup /\
       _orderId popup' = _orderId popup /\
       _closing popup' = _closing popup /\
       _maskDelay popup' = _maskDelay popup /\
       _maskAnimation popup' = _maskAnimation popup /\
       _maskAnimatable popup' = _maskAnimatable popup /\
       (forall k, k <> key -> fields popup' !! k = fields popup !! k)) /\
  stub w' = stub w /\ orderId w' = orderId w /\ props w' = props w.
Proof.
  intros w'. subst w'.
  destruct (resetPopupProperty_cases popupId key value w) as [-> | (popup & Hg & ->)]; simpl.
  - repeat split; try reflexivity. intros popup Hg. exists popup. now repeat split.
  - repeat split.
    + apply map_keys_set_present. change popupId with (fst (popupId, popup)).
      apply in_map. now apply map_get_In.
    + intros k Hk. apply map_get_set_ne. congruence.
    + intros popup0 Hg0. rewrite Hg in Hg0. injection Hg0 as <-.
      exists (set_prop popup key value). rewrite map_get_set_eq.
      repeat split. intros k Hk. simpl. now apply lookup_insert_ne.
Qed.

(** * The static facade *)

(** C5: while no stub is registered, the static [addPopup], [removePopup],
    [removePopupImmediately], [resetPopupProperty] and [isShow] return
    without touching anything, but the static [removeAll] reads
    [removeAll] off [null] and raises (line 97 has no presence check). *)
Theorem static_removeAll_raises_without_stub `{Collaborators}
    (element value : Value) (opts : gmap string Value) (popupId key : string)
    (forceUpdate : bool) (shown : Popup -> bool) (filter : option (Popup -> bool))
    (w : World) :
  let w0 := set_stub false w in
  static_addPopup element opts w0 = Done None w0 /\
  static_removePopup popupId forceUpdate w0 = Done tt w0 /\
  static_removePopupImmediately popupId w0 = Done false w0 /\
  static_resetPopupProperty popupId key value w0 = Done tt w0 /\
  static_isShow shown w0 = Done false w0 /\
  static_removeAll filter w0 = TypeError.
Proof.
  intros w0.
  unfold static_addPopup, static_removePopup, static_removePopupImmediately,
    static_resetPopupProperty, static_isShow, static_removeAll.
  simpl. rewrite !andb_false_r. repeat split.
Qed.

(** * Bulk removal *)

Section RemoveAll.
Context `{Collaborators}.

Lemma closed_calls_filter (records : list Popup) :
  map Call (map (fun o => prop o "onClosed")
              (List.filter (fun o => isFunction (prop o "onClosed")) records))
  = closed_calls records.
Proof.
  unfold closed_calls, call_if_function.
  induction records as [|o records IH]; simpl; [reflexivity|].
  destruct (isFunction (prop o "onClosed")); simpl; now rewrite IH.
Qed.

Lemma closed_calls_filter_by (f : Popup -> bool) (records : list Popup) :
  map Call (map (fun o => prop o "onClosed")
              (List.filter (fun o => f o && isFunction (prop o "onClosed")) records))
  = closed_calls (List.filter f records).
Proof.
  unfold closed_calls, call_if_function.
  induction records as [|o records IH]; simpl; [reflexivity|].
  destruct (f o); simpl; [|exact IH].
  destruct (isFunction (prop o "onClosed")); simpl; now rewrite IH.
Qed.


Lemma kept_entries (f : Popup -> bool) (m : Registry) :
  (forall k p, In (k, p) m -> id p = k) ->
  map (fun popup => (id popup, popup)) (List.filter (fun o => negb (f o)) (map_values m))
  = List.filter (fun kv => negb (f (snd kv))) m.
Proof.
  induction m as [|[k p] m IH]; simpl; intros Hk; [reflexivity|].
  assert (IH' := IH (fun k' p' Hi => Hk k' p' (or_intror Hi))).
  destruct (f p); simpl; [exact IH'|].
  rewrite (Hk k p) by now left. now f_equal.
Qed.

Lemma map_keys_filter (g : string * Popup -> bool) (m : Registry) :
  NoDup (map_keys m) -> NoDup (map_keys (List.filter g m)).
Proof.
  induction m as [|[k p] m IH]; simpl; intros Hnd; [constructor|].
  apply NoDup_cons in Hnd as [Hk Hnd]. destruct (g (k, p)); simpl; [|now apply IH].
  apply NoDup_cons. split; [|now apply IH].
  intros Hi. apply Hk. apply list_elem_of_In in Hi. apply list_elem_of_In.
  unfold map_keys in *. apply in_map_iff in Hi as (e & He & Hi).
  apply filter_In in Hi as [Hi _]. apply in_map_iff. now exists e.
Qed.

Lemma removeAll_filtered (f : Popup -> bool) (w : World) :
  keyed_by_id (popups w) -> popups w <> [] ->
  removeAll (Some f) w =
    mkWorld (stub w) (orderId w) (props w)
      (List.filter (fun kv => negb (f (snd kv))) (popups w))
      (trace w ++ Commit (List.filter (fun kv => negb (f (snd kv))) (popups w))
         :: closed_calls (List.filter f (map_values (popups w)))).
Proof.
  intros [Hnd Hk] Hne. unfold removeAll.
  destruct (popups w) as [|e m] eqn:Hp; [contradiction|].
  cbn [length Nat.eqb]. rewrite closed_calls_filter_by, kept_entries by assumption.
  rewrite map_of_entries_NoDup by now apply map_keys_filter.
  reflexivity.
Qed.
End RemoveAll.

(** C6: [removeAll()] without a filter leaves the registry empty; what it
    does is the commit of the empty registry followed by the call of
    [onClosed] of every record that was registered and has one, once per
    record, in registry order (an empty registry is left alone). With a
    function as filter, in a registry that holds every record under its own
    id, the records kept are exactly those on which the filter is false,
    unchanged and in their order; the commit comes first and the removed
    records' [onClosed] calls follow in registry order. *)
Theorem removeAll_commits_then_calls `{Collaborators} (w : World) :
  (popups (removeAll None w) = [] /\
   trace (removeAll None w) =
     trace w ++ match popups w with
                | [] => []
                | _ :: _ => Commit [] :: closed_calls (map_values (popups w))
                end) /\
  (forall filter : Popup -> bool,
     keyed_by_id (popups w) ->
     popups (removeAll (Some filter) w)
       = List.filter (fun kv => negb (filter (snd kv))) (popups w) /\
     trace (removeAll (Some filter) w) =
       trace w ++ match popups w with
                  | [] => []
                  | _ :: _ =>
                      Commit (popups (removeAll (Some filter) w))
                        :: closed_calls (List.filter filter (map_values (popups w)))
                  end).
Proof.
  split.
  - unfold removeAll. destruct (popups w) as [|e m] eqn:Hp; cbn [length Nat.eqb].
    + rewrite Hp, app_nil_r. now split.
    + rewrite closed_calls_filter. now split.
  - intros filter Hk. destruct (popups w) as [|e m] eqn:Hp.
    + unfold removeAll. rewrite Hp. simpl. rewrite Hp, app_nil_r. now split.
    + rewrite removeAll_filtered; rewrite ?Hp; try assumption; [|discriminate].
      now split.
Qed.

Lemma removeAll_commits_then_calls_witness :
  popups (@removeAll sample (Some is_toast)
            (showing [toast "t1"; plain_popup "a"; toast "t2"]))
    = [("a", plain_popup "a")] /\
  trace (@removeAll sample (Some is_toast)
           (showing [toast "t1"; plain_popup "a"; toast "t2"]))
    = [Commit [("a", plain_popup "a")];
       Call (VFun (UserFn "closed t1")); Call (VFun (UserFn "closed t2"))].
Proof.
  apply (proj2 (@removeAll_commits_then_calls sample
                  (showing [toast "t1"; plain_popup "a"; toast "t2"])) is_toast).
  split; [apply (bool_decide_unpack _); vm_compute; exact I|].
  intros k p [[= <- <-]|[[= <- <-]|[[= <- <-]|[]]]]; reflexivity.
Defined.

(** * The back button *)

Section Back.
Context `{Collaborators}.

Lemma positive_inject_Z (z : Z) : positive (Fin (inject_Z z)) = (0 <? z)%Z.
Proof.
  unfold positive, Qle_bool. simpl. rewrite Z.mul_1_r.
  destruct (Z.leb_spec z 0), (Z.ltb_spec 0 z); simpl; (reflexivity || lia).
Qed.

Lemma back_order_ineligible_right a b :
  eligible b = false -> back_order a b = Fin 1.
Proof.
  unfold eligible, back_order. intros Hb. apply negb_false_iff in Hb. now rewrite Hb.
Qed.

Lemma back_order_ineligible_left a b :
  eligible b = true -> eligible a = false -> back_order a b = Fin (-1).
Proof.
  unfold eligible, back_order. intros Hb Ha.
  apply negb_true_iff in Hb. apply negb_false_iff in Ha. now rewrite Hb, Ha.
Qed.

Lemma back_order_eligible a b :
  eligible a = true -> eligible b = true ->
  back_order a b = Fin (inject_Z (_orderId a - _orderId b)).
Proof.
  unfold eligible, back_order. intros Ha Hb.
  apply negb_true_iff in Hb. apply negb_true_iff in Ha. now rewrite Hb, Ha.
Qed.

Lemma place_top_first (x : Popup) (prefix : list Popup) :
  top_first prefix -> top_first (place back_order x prefix).
Proof.
  destruct prefix as [|y rest]; simpl.
  - intros _ p [<-|[]] Hp. split; [assumption|lia].
  - intros Htop. destruct (eligible x) eqn:Hx.
    + destruct (eligible y) eqn:Hy.
      * rewrite back_order_eligible, positive_inject_Z by assumption.
        destruct (Z.ltb_spec 0 (_orderId y - _orderId x)) as [Hlt|Hge].
        -- intros p Hp Hel. split; [assumption|].
           destruct Hp as [<-|Hp]; [lia|].
           apply list_elem_of_In in Hp. rewrite place_Permutation in Hp.
           apply list_elem_of_In in Hp. destruct Hp as [<-|Hp]; [lia|].
           apply (Htop p); [now right|assumption].
        -- intros p Hp Hel. split; [assumption|].
           destruct Hp as [<-|Hp]; [lia|].
           destruct (Htop p Hp Hel) as [_ Hle]. lia.
      * rewrite back_order_ineligible_left by assumption. simpl.
        intros p Hp Hel. split; [assumption|].
        destruct Hp as [<-|Hp]; [lia|].
        destruct (Htop p Hp Hel) as [Hy' _]. congruence.
    + rewrite back_order_ineligible_right by assumption. simpl.
      intros p Hp Hel.
      assert (Hin : In p (y :: rest)).
      { destruct Hp as [<-|Hp]; [now left|].
        apply list_elem_of_In in Hp. rewrite place_Permutation in Hp.
        apply list_elem_of_In in Hp. destruct Hp as [<-|Hp]; [congruence|now right]. }
      now apply Htop.
Qed.

Lemma sort_rev_top_first (l : list Popup) : top_first (sort_rev back_order l).
Proof.
  unfold sort_rev.
  assert (Hgen : forall prefix, top_first prefix ->
            top_first (fold_left (fun prefix element => place back_order element prefix)
                         l prefix)).
  { induction l as [|x l IH]; intros prefix Hp; simpl; [assumption|].
    now apply IH, place_top_first. }
  now apply Hgen.
Qed.

Lemma pop_sort (l : list Popup) : pop (sort back_order l) = head (sort_rev back_order l).
Proof. unfold pop, sort. now rewrite rev_involutive. Qed.

Lemma In_sort_rev p (l : list Popup) : In p (sort_rev back_order l) <-> In p l.
Proof.
  rewrite <- !list_elem_of_In. unfold sort_rev.
  now rewrite (sort_rev_Permutation back_order l []).
Qed.

(* the record the handler looks at *)
Lemma back_candidate (values : list Popup) :
  values <> [] ->
  exists c, pop (sort back_order values) = Some c /\ In c values /\
    forall p, In p values -> eligible p = true ->
              eligible c = true /\ (_orderId p <= _orderId c)%Z.
Proof.
  intros Hne. rewrite pop_sort.
  pose proof (sort_rev_top_first values) as Htop.
  destruct (sort_rev back_order values) as [|c rest] eqn:Hs.
  - destruct values as [|x values]; [contradiction|].
    assert (Hx : In x (sort_rev back_order (x :: values))) by (apply In_sort_rev; now left).
    rewrite Hs in Hx. destruct Hx.
  - exists c. split; [reflexivity|]. split.
    + apply In_sort_rev. rewrite Hs. now left.
    + intros p Hp Hel. apply Htop; [|assumption].
      rewrite <- Hs. now apply In_sort_rev.
Qed.
End Back.



Example onBackAndroid_three_shown :
  @_onBackAndroid sample three_shown
    = Delegated (VFun (UserFn "falseValue")) "p3" three_shown.
Proof. reflexivity. Qed.

(** * The order counter *)

Section OrderIds.
Context `{Collaborators}.

Lemma orderId_removePopupImmediately id w :
  orderId (snd (removePopupImmediately id w)) = orderId w.
Proof. unfold removePopupImmediately. now destruct (map_get id (popups w)). Qed.

Lemma stub_removePopupImmediately id w :
  stub (snd (removePopupImmediately id w)) = stub w.
Proof. unfold removePopupImmediately. now destruct (map_get id (popups w)). Qed.

Lemma props_removePopupImmediately id w :
  props (snd (removePopupImmediately id w)) = props w.
Proof. unfold removePopupImmediately. now destruct (map_get id (popups w)). Qed.

Lemma statics_removePopup id forceUpdate w :
  orderId (removePopup id forceUpdate w) = orderId w /\
  stub (removePopup id forceUpdate w) = stub w /\
  props (removePopup id forceUpdate w) = props w.
Proof.
  unfold removePopup.
  destruct (negb (nonempty id) || negb (stub w)); [easy|].
  destruct (map_get id (popups w)) as [popup|]; [|easy].
  destruct (_closing popup); [easy|].
  destruct (negb (truthy (prop popup "animation")) || negb (truthy (prop popup "visible"))).
  - now rewrite orderId_removePopupImmediately, stub_removePopupImmediately,
      props_removePopupImmediately.
  - destruct (_beforeClosing popup) as [popup' timer]. now destruct forceUpdate.
Qed.

Lemma statics_evict entries newPopup w :
  orderId (snd (evict entries newPopup w)) = orderId w /\
  stub (snd (evict entries newPopup w)) = stub w /\
  props (snd (evict entries newPopup w)) = props w.
Proof.
  induction entries as [|[key popup] rest IH]; simpl; [easy|].
  destruct (strict_eq (prop popup "zIndex") (prop newPopup "zIndex") && negb (_closing popup));
    [apply statics_removePopup|exact IH].
Qed.

Lemma statics_register newPopup w :
  orderId (snd (register newPopup w)) = orderId w /\
  stub (snd (register newPopup w)) = stub w /\
  props (snd (register newPopup w)) = props w.
Proof.
  unfold register. pose proof (statics_evict (popups w) newPopup w) as Hev.
  destruct (evict (popups w) newPopup w) as [newPopup' w']. exact Hev.
Qed.

Lemma orderId_addPopup element opts w :
  orderId (snd (addPopup element opts w)) =
    if negb (truthy element) || negb (stub w) then orderId w else (orderId w + 1)%Z.
Proof.
  unfold addPopup. destruct (negb (truthy element) || negb (stub w)); [reflexivity|].
  pose proof (statics_register
                (createPopup element (with_orderId (orderId w) opts) (props (bump_orderId w)))
                (bump_orderId w)) as (Ho & _).
  destruct (register _ _) as [id w']. exact Ho.
Qed.

Lemma orderId_step op w :
  orderId (step op w) =
    match op with
    | AddPopup element _ =>
        if negb (truthy element) || negb (stub w) then orderId w else (orderId w + 1)%Z
    | _ => orderId w
    end.
Proof.
  destruct op as [r|element opts|id force|id|id key value|filter|]; simpl.
  - now destruct r.
  - apply orderId_addPopup.
  - apply statics_removePopup.
  - apply orderId_removePopupImmediately.
  - now destruct (resetPopupProperty_cases id key value w) as [-> | (popup & _ & ->)].
  - unfold removeAll. destruct (length (popups w) =? 0)%nat; [reflexivity|].
    now destruct filter.
  - unfold _onBackAndroid. destruct (length (popups w) =? 0)%nat; [reflexivity|].
    destruct (pop _) as [popup|]; [|reflexivity].
    destruct (_closing popup || negb (truthy (prop popup "visible"))); [reflexivity|].
    destruct (truthy (prop popup "autoClose") && truthy (prop popup "visible"));
      [apply statics_removePopup|reflexivity].
Qed.


End OrderIds.




(** * Properties and fields of a record *)

Lemma prop_set_prop_eq popup key value : prop (set_prop popup key value) key = value.
Proof. unfold prop, set_prop. simpl. now rewrite lookup_insert_eq. Qed.

Lemma prop_set_prop_ne popup key key' value :
  key <> key' -> prop (set_prop popup key value) key' = prop popup key'.
Proof. intros Hne. unfold prop, set_prop. simpl. now rewrite lookup_insert_ne. Qed.

Section Closing.
Context `{Collaborators}.

(* what [_beforeClosing] does to the fields the registry is organised by *)
Lemma beforeClosing_record popup :
  let popup' := fst (_beforeClosing popup) in
  id popup' = id popup /\
  _orderId popup' = _orderId popup /\
  _closing popup' = true /\
  prop popup' "delay" = VNum (Fin 0) /\
  prop popup' "zIndex" = prop popup "zIndex" /\
  prop popup' "visible" = prop popup "visible" /\
  _maskDelay popup' =
    if _maskAnimatable popup
    then js_sub (prop popup "duration") (prop popup "maskDuration")
    else _maskDelay popup.
Proof.
  unfold _beforeClosing. cbv zeta.
  destruct (_maskAnimatable (set_closing (set_prop popup "delay" (VNum (Fin 0))) true)) eqn:Hm;
    simpl in Hm; rewrite Hm;
    match goal with
    | |- context [if ?c then _ else _] => destruct c
    end; simpl;
    repeat split;
    rewrite ?prop_set_prop_eq; repeat (rewrite prop_set_prop_ne by discriminate);
    try reflexivity; unfold prop; simpl; rewrite ?lookup_insert_ne by discriminate;
    rewrite ?lookup_insert_eq; reflexivity.
Qed.

Lemma removePopup_begins_closing id forceUpdate popup w :
  nonempty id = true -> stub w = true ->
  map_get id (popups w) = Some popup -> _closing popup = false ->
  truthy (prop popup "animation") = true -> truthy (prop popup "visible") = true ->
  removePopup id forceUpdate w =
    let popups' := map_set id (fst (_beforeClosing popup)) (popups w) in
    mkWorld (stub w) (orderId w) (props w) popups'
      (trace w ++ snd (_beforeClosing popup)
         ++ if forceUpdate then [Commit popups'] else []).
Proof.
  intros Hid Hs Hg Hc Ha Hv. unfold removePopup.
  rewrite Hid, Hs, Hg, Hc, Ha, Hv. simpl.
  destruct (_beforeClosing popup) as [popup' timer]. simpl.
  destruct forceUpdate; unfold setState, emit, mutate; simpl;
    now rewrite Hs, <- ?app_assoc, ?app_nil_r.
Qed.

Lemma removePopup_registry_cases id forceUpdate w :
  popups (removePopup id forceUpdate w) = popups w \/
  (exists popup, map_get id (popups w) = Some popup /\
     popups (removePopup id forceUpdate w) = map_delete id (popups w)) \/
  (exists popup, map_get id (popups w) = Some popup /\
     popups (removePopup id forceUpdate w)
       = map_set id (fst (_beforeClosing popup)) (popups w)).
Proof.
  unfold removePopup.
  destruct (negb (nonempty id) || negb (stub w)); [now left|].
  destruct (map_get id (popups w)) as [popup|] eqn:Hg; [|now left].
  destruct (_closing popup); [now left|].
  destruct (negb (truthy (prop popup "animation")) || negb (truthy (prop popup "visible"))).
  - right. left. exists popup. split; [reflexivity|].
    now rewrite (removePopupImmediately_present _ _ _ Hg).
  - right. right. exists popup. split; [reflexivity|].
    destruct (_beforeClosing popup) as [popup' timer]. now destruct forceUpdate.
Qed.

Lemma removePopup_NoDup id forceUpdate w :
  NoDup (map_keys (popups w)) -> NoDup (map_keys (popups (removePopup id forceUpdate w))).
Proof.
  intros Hnd. unfold removePopup.
  destruct (negb (nonempty id) || negb (stub w)); [assumption|].
  destruct (map_get id (popups w)) as [popup|] eqn:Hg; [|assumption].
  destruct (_closing popup); [assumption|].
  destruct (negb (truthy (prop popup "animation")) || negb (truthy (prop popup "visible"))).
  - rewrite (removePopupImmediately_present _ _ _ Hg). simpl. now apply NoDup_map_delete.
  - destruct (_beforeClosing popup) as [popup' timer].
    destruct forceUpdate; simpl; now apply NoDup_map_set.
Qed.

(** * The scan for a record on the newcomer's layer *)

Lemma evict_passes entries newPopup w :
  (forall k p, In (k, p) entries -> collides newPopup p = false) ->
  evict entries newPopup w = (newPopup, w).
Proof.
  induction entries as [|[k p] rest IH]; intros Hno; simpl; [reflexivity|].
  fold (collides newPopup p). rewrite (Hno k p) by now left.
  apply IH. intros k' p' Hi. apply (Hno k' p'). now right.
Qed.

Lemma evict_stops before key popup after newPopup w :
  (forall k p, In (k, p) before -> collides newPopup p = false) ->
  collides newPopup popup = true ->
  evict (before ++ (key, popup) :: after) newPopup w
    = (delayed newPopup popup, removePopup key false w).
Proof.
  intros Hno Hyes. induction before as [|[k p] before IH]; simpl.
  - fold (collides newPopup popup). now rewrite Hyes.
  - fold (collides newPopup p). rewrite (Hno k p) by now left.
    apply IH. intros k' p' Hi. apply (Hno k' p'). now right.
Qed.

Lemma evict_cases entries newPopup w :
  ((forall k p, In (k, p) entries -> collides newPopup p = false) /\
   evict entries newPopup w = (newPopup, w)) \/
  (exists before key popup after,
     entries = before ++ (key, popup) :: after /\
     (forall k p, In (k, p) before -> collides newPopup p = false) /\
     collides newPopup popup = true /\
     evict entries newPopup w = (delayed newPopup popup, removePopup key false w)).
Proof.
  induction entries as [|[k p] rest IH].
  - left. split; [intros k p []|reflexivity].
  - destruct (collides newPopup p) eqn:Hc.
    + right. exists [], k, p, rest. repeat split; [intros ? ? []|assumption|].
      now apply (evict_stops [] k p rest).
    + destruct IH as [[Hno Hev]|(before & key & popup & after & -> & Hno & Hyes & Hev)].
      * left. split.
        -- intros k' p' [[= <- <-]|Hi]; [assumption|now apply (Hno k' p')].
        -- simpl. fold (collides newPopup p). now rewrite Hc.
      * right. exists ((k, p) :: before), key, popup, after.
        repeat split; [|assumption|].
        -- intros k' p' [[= <- <-]|Hi]; [assumption|now apply (Hno k' p')].
        -- simpl. fold (collides newPopup p). now rewrite Hc.
Qed.

Lemma delayed_record newPopup evicted :
  id (delayed newPopup evicted) = id newPopup /\
  _orderId (delayed newPopup evicted) = _orderId newPopup /\
  _closing (delayed newPopup evicted) = _closing newPopup /\
  prop (delayed newPopup evicted) "zIndex" = prop newPopup "zIndex" /\
  prop (delayed newPopup evicted) "onAdded" = prop newPopup "onAdded" /\
  prop (delayed newPopup evicted) "delay"
    = VNum (js_div (prop evicted "duration") (VNum (Fin 2))) /\
  _maskDelay (delayed newPopup evicted) = js_div (prop evicted "duration") (VNum (Fin 2)).
Proof.
  unfold delayed. cbv zeta. repeat split;
    rewrite ?prop_set_prop_eq; repeat (rewrite prop_set_prop_ne by discriminate);
    reflexivity.
Qed.
End Closing.

(** * Adding a record *)

Section Adding.
Context `{Collaborators}.

Lemma addPopup_registers element opts w :
  truthy element = true -> stub w = true ->
  addPopup element opts w =
    let newPopup := createPopup element (with_orderId (orderId w) opts) (props w) in
    let '(id, w') := register newPopup (bump_orderId w) in
    (Some id, w').
Proof.
  intros He Hs. unfold addPopup. now rewrite He, Hs.
Qed.

Lemma register_after_eviction newPopup w before key popup after :
  popups w = before ++ (key, popup) :: after ->
  (forall k p, In (k, p) before -> collides newPopup p = false) ->
  collides newPopup popup = true ->
  register newPopup w =
    let closed := removePopup key false w in
    let incoming := delayed newPopup popup in
    let popups' := map_set (id newPopup) incoming (popups closed) in
    (id newPopup,
     mkWorld (stub closed) (orderId closed) (props closed) (_sortPopups popups')
       (trace closed ++ Commit (_sortPopups popups')
          :: call_if_function (prop newPopup "onAdded"))).
Proof.
  intros Hp Hno Hyes. unfold register. rewrite Hp.
  rewrite (evict_stops before key popup after newPopup w Hno Hyes).
  destruct (delayed_record newPopup popup) as (Hid & _ & _ & _ & Hadded & _).
  cbv zeta. now rewrite Hid, Hadded.
Qed.

Lemma register_without_eviction newPopup w :
  (forall k p, In (k, p) (popups w) -> collides newPopup p = false) ->
  register newPopup w =
    let popups' := map_set (id newPopup) newPopup (popups w) in
    (id newPopup,
     mkWorld (stub w) (orderId w) (props w) (_sortPopups popups')
       (trace w ++ Commit (_sortPopups popups')
          :: call_if_function (prop newPopup "onAdded"))).
Proof.
  intros Hno. unfold register. now rewrite (evict_passes _ _ _ Hno).
Qed.
End Adding.



(** * What every operation keeps of the registry *)


Lemma In_map_set_NoDup {V} k (v : V) k0 v0 m :
  NoDup (map_keys m) ->
  In (k0, v0) (map_set k v m) -> (k0 = k /\ v0 = v) \/ (k0 <> k /\ In (k0, v0) m).
Proof.
  intros Hnd Hi. destruct (String.eqb_spec k0 k) as [->|Hne].
  - left. split; [reflexivity|].
    apply In_map_get in Hi; [|now apply NoDup_map_set].
    rewrite map_get_set_eq in Hi. congruence.
  - right. split; [assumption|].
    apply In_map_set in Hi as [[Hk _]|Hi]; [contradiction|assumption].
Qed.





Section Kept.
Context `{Collaborators}.











End Kept.




(** * Every record sits under its own id *)

Section Keyed.
Context `{Collaborators}.

Lemma keyed_by_id_nil : keyed_by_id [].
Proof. split; [constructor|intros ? ? []]. Qed.

Lemma keyed_by_id_sub (m m' : Registry) :
  keyed_by_id m -> NoDup (map_keys m') ->
  (forall k p, In (k, p) m' -> In (k, p) m) -> keyed_by_id m'.
Proof.
  intros [_ Hid] Hnd Hsub. split; [assumption|].
  intros k p Hi. apply Hid. now apply Hsub.
Qed.

Lemma keyed_by_id_set k p (m : Registry) :
  keyed_by_id m -> id p = k -> keyed_by_id (map_set k p m).
Proof.
  intros [Hnd Hid] Hk. split; [now apply NoDup_map_set|].
  intros k0 p0 H0. apply In_map_set in H0 as [[-> ->]|H0]; [assumption|now apply Hid].
Qed.

Lemma keyed_by_id_removePopup id forceUpdate w :
  keyed_by_id (popups w) -> keyed_by_id (popups (removePopup id forceUpdate w)).
Proof.
  intros Hok.
  destruct (removePopup_registry_cases id forceUpdate w)
    as [-> | [(popup & Hg & ->) | (popup & Hg & ->)]]; [assumption| |].
  - apply (keyed_by_id_sub (popups w)); [assumption|apply NoDup_map_delete, Hok|].
    intros k p Hi. now apply In_map_delete in Hi.
  - apply keyed_by_id_set; [assumption|].
    destruct (beforeClosing_record popup) as (-> & _).
    apply Hok. now apply map_get_In.
Qed.

Lemma keyed_by_id_step op w :
  keyed_by_id (popups w) -> keyed_by_id (popups (step op w)).
Proof.
  intros Hok.
  destruct op as [r|element opts|id force|id|id key value|filter|]; simpl.
  - now destruct r.
  - unfold addPopup.
    destruct (negb (truthy element) || negb (stub w)); [assumption|].
    set (newPopup := createPopup _ _ _). set (w0 := bump_orderId w).
    assert (Hreg : keyed_by_id (popups (snd (register newPopup w0)))).
    { assert (Hset : forall q w1, id q = id newPopup -> keyed_by_id (popups w1) ->
                keyed_by_id (_sortPopups (map_set (id newPopup) q (popups w1)))).
      { intros q w1 Hq Hw1.
        assert (Hins := keyed_by_id_set (id newPopup) q (popups w1) Hw1 Hq).
        apply (keyed_by_id_sub _ _ Hins); [apply sortPopups_NoDup, Hins|].
        intros k p. apply In_sortPopups, Hins. }
      destruct (evict_cases (popups w0) newPopup w0)
        as [[Hno Hev]|(before & key & popup & after & Hp & Hno & Hyes & Hev)].
      - rewrite (register_without_eviction newPopup w0 Hno). now apply Hset.
      - rewrite (register_after_eviction newPopup w0 before key popup after Hp Hno Hyes).
        apply Hset; [apply delayed_record|now apply keyed_by_id_removePopup]. }
    now destruct (register newPopup w0).
  - now apply keyed_by_id_removePopup.
  - destruct (map_get id (popups w)) as [popup|] eqn:Hg.
    + rewrite (removePopupImmediately_present _ _ _ Hg). simpl.
      apply (keyed_by_id_sub (popups w)); [assumption|apply NoDup_map_delete, Hok|].
      intros k p Hi. now apply In_map_delete in Hi.
    + now rewrite (removePopupImmediately_absent _ _ Hg).
  - destruct (resetPopupProperty_cases id key value w) as [-> | (popup & Hg & ->)];
      [assumption|]. simpl. apply keyed_by_id_set; [assumption|].
    simpl. apply Hok. now apply map_get_In.
  - destruct (popups w) as [|e m] eqn:Hp.
    { unfold removeAll. rewrite Hp. simpl. now rewrite Hp. }
    assert (Hne : popups w <> []) by (rewrite Hp; discriminate).
    rewrite <- Hp in Hok. destruct filter as [f|].
    + rewrite removeAll_filtered by assumption. cbn [popups].
      apply (keyed_by_id_sub (popups w)); [assumption|apply map_keys_filter, Hok|].
      intros k p Hi. now apply filter_In in Hi.
    + unfold removeAll. rewrite Hp. apply keyed_by_id_nil.
  - unfold _onBackAndroid.
    destruct (length (popups w) =? 0)%nat; [assumption|].
    destruct (pop _) as [popup|]; [|assumption].
    destruct (_closing popup || negb (truthy (prop popup "visible"))); [assumption|].
    destruct (truthy (prop popup "autoClose") && truthy (prop popup "visible"));
      [now apply keyed_by_id_removePopup|assumption].
Qed.
End Keyed.

(** Whatever the operations and their arguments, the registry of a
    controller that started out empty holds each record once, under the
    record's own id. *)
Theorem keyed_by_id_run `{Collaborators} (p : Props) (ops : list Op) :
  keyed_by_id (popups (run ops (mounted p))).
Proof.
  assert (Hgen : forall w, keyed_by_id (popups w) -> keyed_by_id (popups (run ops w))).
  { induction ops as [|op ops IH]; intros w Hok; simpl; [assumption|].
    now apply IH, keyed_by_id_step. }
  apply Hgen, keyed_by_id_nil.
Qed.

(** * The removal state machine beyond the first call *)

(** A second [removePopup] for the same id changes nothing more: the record
    is gone, or it is closing, or the guard that stopped the first call
    stops the second one. *)
Theorem removePopup_idempotent `{Collaborators}
    (popupId : string) (first second : bool) (w : World) :
  removePopup popupId second (removePopup popupId first w) = removePopup popupId first w.
Proof.
  destruct (nonempty popupId) eqn:Hid;
    [|now rewrite (removePopup_guarded popupId first w), removePopup_guarded by now left].
  destruct (stub w) eqn:Hs;
    [|now rewrite (removePopup_guarded popupId first w), removePopup_guarded by now right].
  destruct (map_get popupId (popups w)) as [popup|] eqn:Hg;
    [|now rewrite (removePopup_absent popupId first w Hg), removePopup_absent].
  destruct (_closing popup) eqn:Hc;
    [now rewrite (removePopup_closing popupId first popup w Hg Hc),
       (removePopup_closing popupId second popup w Hg Hc)|].
  destruct (truthy (prop popup "animation") && truthy (prop popup "visible")) eqn:Hav.
  - apply andb_true_iff in Hav as [Ha Hv].
    rewrite (removePopup_begins_closing popupId first popup w) by assumption. cbv zeta.
    apply (removePopup_closing popupId second (fst (_beforeClosing popup))).
    + simpl. apply map_get_set_eq.
    + apply beforeClosing_record.
  - rewrite (removePopup_immediate popupId first popup w); try assumption.
    + apply removePopup_absent.
      rewrite (removePopupImmediately_present _ _ _ Hg). simpl. apply map_get_delete_eq.
    + apply andb_false_iff in Hav as [-> | ->]; [now left|now right].
Qed.

(** A second [removePopupImmediately] for the same id finds nothing: it
    returns false, commits nothing and calls nothing, so the timer and the
    animation-end callback of one closing record cannot close it twice. *)
Theorem removePopupImmediately_once `{Collaborators} (popupId : string) (w : World) :
  removePopupImmediately popupId (snd (removePopupImmediately popupId w))
    = (false, snd (removePopupImmediately popupId w)).
Proof.
  apply removePopupImmediately_absent.
  destruct (map_get popupId (popups w)) as [popup|] eqn:Hg.
  - rewrite (removePopupImmediately_present _ _ _ Hg). simpl. apply map_get_delete_eq.
  - now rewrite (removePopupImmediately_absent _ _ Hg).
Qed.

Lemma beforeClosing_animation `{Collaborators} (popup : Popup) :
  let closing := fst (_beforeClosing popup) in
  if negb (truthy (prop popup "closingAnimation")) && is_string (prop popup "animation")
  then prop closing "direction" = VStr "reverse" /\
       prop closing "closingAnimation" = prop popup "animation" /\
       snd (_beforeClosing popup)
         = [SetTimeout (RemoveNowFn (id popup))
              (js_or (prop popup "duration") (VNum (Fin 100)))]
  else prop closing "closingAnimation"
         = js_or (prop popup "closingAnimation") (reverseKeyframes (prop popup "animation")) /\
       prop closing "onAnimationEnd" = VFun (RemoveNowFn (id popup)) /\
       snd (_beforeClosing popup) = [].
Proof.
  unfold _beforeClosing. cbv zeta.
  set (base := set_closing (set_prop popup "delay" (VNum (Fin 0))) true).
  set (masked := if _maskAnimatable base then _ else base).
  assert (Hmasked : forall k, prop masked k = prop base k).
  { intros k. subst masked. now destruct (_maskAnimatable base). }
  assert (Hbase : forall k, "delay" <> k -> prop base k = prop popup k).
  { intros k Hk. unfold base. now apply prop_set_prop_ne. }
  rewrite !Hmasked. rewrite !Hbase by discriminate.
  destruct (negb (truthy (prop popup "closingAnimation")) && is_string (prop popup "animation"));
    cbn [fst snd];
    repeat first [ rewrite prop_set_prop_eq
                 | rewrite prop_set_prop_ne by discriminate
                 | rewrite Hmasked
                 | rewrite Hbase by discriminate ];
    now repeat split.
Qed.

(** When [removePopup] gets past its guard and finds a record that is not
    closing, animated and visible, the record stays registered in its place,
    marked as closing with [delay] 0, and every other record is untouched.
    With a string [animation] and no [closingAnimation] the direction is
    reversed, the animation is reused and a timer of [duration || 100] is
    started for [removePopupImmediately(id)]; otherwise the closing
    animation is the one given or the reversed keyframes, and
    [onAnimationEnd] becomes that removal. The registry is committed exactly
    when [forceUpdate] is set. *)
Theorem removePopup_starts_closing `{Collaborators}
    (popupId : string) (forceUpdate : bool) (popup : Popup) (w : World) :
  nonempty popupId = true -> stub w = true ->
  map_get popupId (popups w) = Some popup -> _closing popup = false ->
  truthy (prop popup "animation") = true -> truthy (prop popup "visible") = true ->
  let w' := removePopup popupId forceUpdate w in
  let timed := negb (truthy (prop popup "closingAnimation"))
               && is_string (prop popup "animation") in
  exists closing,
    map_get popupId (popups w') = Some closing /\
    map_keys (popups w') = map_keys (popups w) /\
    (forall k, k <> popupId -> map_get k (popups w') = map_get k (popups w)) /\
    _closing closing = true /\ prop closing "delay" = VNum (Fin 0) /\
    (if timed
     then prop closing "direction" = VStr "reverse" /\
          prop closing "closingAnimation" = prop popup "animation"
     else prop closing "closingAnimation"
            = js_or (prop popup "closingAnimation")
                (reverseKeyframes (prop popup "animation")) /\
          prop closing "onAnimationEnd" = VFun (RemoveNowFn (id popup))) /\
    trace w' =
      trace w
      ++ (if timed
          then [SetTimeout (RemoveNowFn (id popup))
                  (js_or (prop popup "duration") (VNum (Fin 100)))]
          else [])
      ++ (if forceUpdate then [Commit (popups w')] else []).
Proof.
  intros Hid Hs Hg Hc Ha Hv w' timed. subst w'.
  rewrite (removePopup_begins_closing popupId forceUpdate popup w) by assumption.
  cbv zeta. cbn [popups trace].
  exists (fst (_beforeClosing popup)).
  split; [apply map_get_set_eq|].
  split; [apply map_keys_set_present; change popupId with (fst (popupId, popup));
          apply in_map; now apply map_get_In|].
  split; [intros k Hk; apply map_get_set_ne; congruence|].
  split; [apply beforeClosing_record|].
  split; [apply beforeClosing_record|].
  pose proof (beforeClosing_animation popup) as Hanim. cbv zeta in Hanim.
  fold timed in Hanim. destruct timed.
  - destruct Hanim as (Hd & Ha' & ->). now repeat split.
  - destruct Hanim as (Hd & Ha' & ->). now repeat split.
Qed.

Lemma removePopup_starts_closing_witness :
  exists closing,
    map_get "sheet" (popups (@removePopup sample "sheet" true (showing [sheet])))
      = Some closing /\
    _closing closing = true /\ prop closing "delay" = VNum (Fin 0) /\
    prop closing "direction" = VStr "reverse" /\
    trace (@removePopup sample "sheet" true (showing [sheet]))
      = [SetTimeout (RemoveNowFn "sheet") (VNum (Fin 250));
         Commit (popups (@removePopup sample "sheet" true (showing [sheet])))].
Proof.
  destruct (@removePopup_starts_closing sample "sheet" true sheet (showing [sheet])
              eq_refl eq_refl eq_refl eq_refl eq_refl eq_refl)
    as (closing & Hg & _ & _ & Hc & Hd & [Hr _] & Ht).
  exists closing. repeat split; assumption.
Defined.

(** * Is anything shown? *)

(** With a stub registered, the static [isShow(filter)] answers true exactly
    when some registered record is visible and passes the filter; it answers
    without changing anything. *)
Theorem static_isShow_visible (filter : Popup -> bool) (w : World) :
  stub w = true ->
  exists shown,
    static_isShow filter w = Done shown w /\
    (shown = true <->
     exists popup, In popup (map_values (popups w)) /\
                   truthy (prop popup "visible") = true /\ filter popup = true).
Proof.
  intros Hs. unfold static_isShow. rewrite Hs. simpl.
  eexists. split; [reflexivity|]. rewrite existsb_exists.
  split; intros (popup & Hi & Hv); exists popup; (split; [exact Hi|]).
  - now apply andb_true_iff.
  - now apply andb_true_iff.
Qed.

Lemma static_isShow_visible_witness :
  exists shown,
    static_isShow is_toast (showing [plain_popup "a"; toast "t"])
      = Done shown (showing [plain_popup "a"; toast "t"]) /\
    (shown = true <->
     exists popup, In popup (map_values (popups (showing [plain_popup "a"; toast "t"]))) /\
                   truthy (prop popup "visible") = true /\ is_toast popup = true).
Proof.
  apply (static_isShow_visible is_toast (showing [plain_popup "a"; toast "t"])).
  reflexivity.
Defined.

(** * What [sort] does with a comparator that behaves *)

Section SortOrder.
Context {A : Type} (comparefn : A -> A -> Number).

(* the elements that are compared: [ok] holds of them, and on them the
   comparator follows the preorder [le] *)
Context (ok : A -> Prop) (le : A -> A -> Prop).
Hypothesis le_trans : forall a b c, le a b -> le b c -> le a c.
Hypothesis after : forall a b, ok a -> ok b -> positive (comparefn a b) = true -> le b a.
Hypothesis not_after : forall a b, ok a -> ok b -> positive (comparefn a b) = false -> le a b.

Lemma place_descending x (prefix : list A) :
  ok x -> Forall ok prefix ->
  StronglySorted (fun a b => le b a) prefix ->
  StronglySorted (fun a b => le b a) (place comparefn x prefix).
Proof.
  intros Hx Hok Hs. induction Hs as [|y rest Hrest IH Hy]; simpl.
  - repeat constructor.
  - apply Forall_cons in Hok as [Hoky Hok].
    destruct (positive (comparefn y x)) eqn:Hc.
    + constructor; [now apply IH|].
      rewrite place_Permutation. constructor; [now apply after|assumption].
    + assert (Hyx : le y x) by now apply not_after.
      constructor; [now constructor|].
      constructor; [assumption|].
      eapply Forall_impl; [exact Hy|]. intros z Hz. now apply (le_trans z y x).
Qed.

Lemma sort_rev_descending (l prefix : list A) :
  Forall ok l -> Forall ok prefix ->
  StronglySorted (fun a b => le b a) prefix ->
  StronglySorted (fun a b => le b a)
    (fold_left (fun prefix element => place comparefn element prefix) l prefix).
Proof.
  revert prefix. induction l as [|x l IH]; intros prefix Hl Hp Hs; simpl; [assumption|].
  apply Forall_cons in Hl as [Hx Hl]. apply IH; [assumption| |now apply place_descending].
  rewrite place_Permutation. now constructor.
Qed.

Lemma StronglySorted_snoc (R : A -> A -> Prop) (l : list A) x :
  StronglySorted R l -> Forall (fun y => R y x) l -> StronglySorted R (l ++ [x]).
Proof.
  induction 1 as [|y l Hl IH Hy]; intros Hall; simpl; [repeat constructor|].
  apply Forall_cons in Hall as [Hyx Hall].
  constructor; [now apply IH|]. apply Forall_app. split; [assumption|now constructor].
Qed.

Lemma StronglySorted_rev_flip (R : A -> A -> Prop) (l : list A) :
  StronglySorted (fun a b => R b a) l -> StronglySorted R (rev l).
Proof.
  induction 1 as [|y l Hl IH Hy]; simpl; [constructor|].
  apply StronglySorted_snoc; [assumption|]. now apply Forall_rev.
Qed.

Lemma sort_ascending (l : list A) : Forall ok l -> StronglySorted le (sort comparefn l).
Proof.
  intros Hl. unfold sort, sort_rev. apply StronglySorted_rev_flip.
  apply sort_rev_descending; [assumption|constructor|constructor].
Qed.
End SortOrder.

Section SortStable.
Context {A : Type} (comparefn : A -> A -> Number).

(* a class of elements none of which the comparator puts after another *)
Context (same : A -> bool).
Hypothesis level : forall a b, same a = true -> same b = true -> positive (comparefn a b) = false.




End SortStable.

(** * The registry in layer order *)

Section Layers.
Context `{Collaborators}.

Lemma positive_Fin (q : Q) : positive (Fin q) = true <-> (0 < q)%Q.
Proof.
  unfold positive. rewrite negb_true_iff.
  destruct (Qle_bool q 0) eqn:Hq.
  - apply Qle_bool_iff in Hq. split; [discriminate|]. intros Hlt. lra.
  - split; [intros _|reflexivity].
    destruct (Qlt_le_dec 0 q) as [Hlt|Hle]; [assumption|].
    apply Qle_bool_iff in Hle. congruence.
Qed.

Lemma not_positive_Fin (q : Q) : positive (Fin q) = false <-> (q <= 0)%Q.
Proof.
  unfold positive. rewrite negb_false_iff. apply Qle_bool_iff.
Qed.

Lemma by_zIndex_numeric a b :
  numeric (snd a) = true -> numeric (snd b) = true ->
  exists x y, prop (snd a) "zIndex" = VNum (Fin x) /\ prop (snd b) "zIndex" = VNum (Fin y) /\
              by_zIndex a b = Fin (x - y).
Proof.
  unfold numeric, by_zIndex, js_sub.
  destruct (prop (snd a) "zIndex") as [| | |[|x]| | |]; try discriminate.
  destruct (prop (snd b) "zIndex") as [| | |[|y]| | |]; try discriminate.
  intros _ _. now exists x, y.
Qed.

Lemma zIndex_le_trans a b c : zIndex_le a b -> zIndex_le b c -> zIndex_le a c.
Proof.
  unfold zIndex_le.
  destruct (prop a "zIndex") as [| | |[|x]| | |]; try contradiction.
  destruct (prop b "zIndex") as [| | |[|y]| | |]; try contradiction.
  destruct (prop c "zIndex") as [| | |[|z]| | |]; try contradiction.
  intros Hxy Hyz. lra.
Qed.

Lemma sort_by_zIndex_ascending (m : Registry) :
  Forall (fun e => numeric (snd e) = true) m ->
  StronglySorted (fun a b => zIndex_le (snd a) (snd b)) (sort by_zIndex m).
Proof.
  apply (sort_ascending by_zIndex (fun e => numeric (snd e) = true)).
  - intros a b c. apply zIndex_le_trans.
  - intros a b Ha Hb Hpos.
    destruct (by_zIndex_numeric a b Ha Hb) as (x & y & Hx & Hy & Hc).
    rewrite Hc in Hpos. apply positive_Fin in Hpos.
    unfold zIndex_le. rewrite Hx, Hy. lra.
  - intros a b Ha Hb Hneg.
    destruct (by_zIndex_numeric a b Ha Hb) as (x & y & Hx & Hy & Hc).
    rewrite Hc in Hneg. apply not_positive_Fin in Hneg.
    unfold zIndex_le. rewrite Hx, Hy. lra.
Qed.


Lemma sortPopups_sort (m : Registry) :
  NoDup (map_keys m) -> (1 < length m)%nat -> _sortPopups m = sort by_zIndex m.
Proof.
  intros Hnd Hlen. unfold _sortPopups.
  apply Nat.ltb_lt in Hlen. rewrite Hlen.
  apply map_of_entries_NoDup. unfold map_keys.
  now rewrite (sort_Permutation by_zIndex m).
Qed.

Lemma short_sorted (R : string * Popup -> string * Popup -> Prop) (m : Registry) :
  ~ (1 < length m)%nat -> StronglySorted R m.
Proof.
  destruct m as [|e [|e' m]]; simpl; intros Hlen; [repeat constructor..|lia].
Qed.

Lemma sortPopups_ascending (m : Registry) :
  NoDup (map_keys m) -> Forall (fun e => numeric (snd e) = true) m ->
  StronglySorted (fun a b => zIndex_le (snd a) (snd b)) (_sortPopups m).
Proof.
  intros Hnd Hnum. destruct (lt_dec 1 (length m)) as [Hlen|Hlen].
  - rewrite sortPopups_sort by assumption. now apply sort_by_zIndex_ascending.
  - unfold _sortPopups. apply Nat.ltb_nlt in Hlen as Hb. rewrite Hb.
    now apply short_sorted.
Qed.
End Layers.

(** [_sortPopups] loses and invents nothing: the result holds the entries
    of a registry with one entry per key in some order, so it has the same
    size, the same keys once each, and the same record under every key. *)
Theorem sortPopups_keeps_entries `{Collaborators} (m : Registry) :
  NoDup (map_keys m) ->
  Permutation (_sortPopups m) m /\
  length (_sortPopups m) = length m /\
  NoDup (map_keys (_sortPopups m)) /\
  (forall k, map_get k (_sortPopups m) = map_get k m).
Proof.
  intros Hnd. pose proof (sortPopups_Permutation m Hnd) as Hp.
  split; [exact Hp|]. split; [now rewrite Hp|].
  split; [now apply sortPopups_NoDup|].
  intros k. now apply map_get_sortPopups.
Qed.

Lemma sortPopups_keeps_entries_witness :
  Permutation (@_sortPopups sample unsorted) unsorted /\
  length (@_sortPopups sample unsorted) = length unsorted /\
  NoDup (map_keys (@_sortPopups sample unsorted)) /\
  (forall k, map_get k (@_sortPopups sample unsorted) = map_get k unsorted).
Proof.
  apply (@sortPopups_keeps_entries sample unsorted).
  apply (bool_decide_unpack _). vm_compute. exact I.
Defined.

(** When every record has a finite number as [zIndex], [_sortPopups]
    returns the registry in ascending [zIndex] order: every entry lies on
    the layer of each later entry or below it. *)
Theorem sortPopups_orders_layers `{Collaborators} (m : Registry) :
  NoDup (map_keys m) ->
  (forall k p, In (k, p) m -> numeric p = true) ->
  StronglySorted (fun a b => zIndex_le (snd a) (snd b)) (_sortPopups m).
Proof.
  intros Hnd Hnum. apply sortPopups_ascending; [assumption|].
  apply Forall_forall. intros [k p] Hi. apply (Hnum k p). now apply list_elem_of_In.
Qed.

Lemma sortPopups_orders_layers_witness :
  StronglySorted (fun a b => zIndex_le (snd a) (snd b)) (@_sortPopups sample unsorted).
Proof.
  apply (@sortPopups_orders_layers sample unsorted).
  - apply (bool_decide_unpack _). vm_compute. exact I.
  - intros k p [[= <- <-]|[[= <- <-]|[[= <- <-]|[[= <- <-]|[]]]]]; reflexivity.
Defined.



Example sortPopups_unsorted :
  map fst (@_sortPopups sample unsorted) = ["a"; "s1"; "s2"; "t"].
Proof. reflexivity. Qed.

(** * What an add does to the rest of the registry *)

Section AddFrame.
Context `{Collaborators}.

Lemma removePopup_other id forceUpdate k w :
  k <> id -> map_get k (popups (removePopup id forceUpdate w)) = map_get k (popups w).
Proof.
  intros Hk.
  destruct (removePopup_registry_cases id forceUpdate w)
    as [-> | [(popup & _ & ->) | (popup & _ & ->)]]; [reflexivity| |].
  - apply map_get_delete_ne. congruence.
  - apply map_get_set_ne. congruence.
Qed.

Lemma removePopup_numeric id forceUpdate w :
  (forall k p, In (k, p) (popups w) -> numeric p = true) ->
  forall k p, In (k, p) (popups (removePopup id forceUpdate w)) -> numeric p = true.
Proof.
  intros Hnum k p.
  destruct (removePopup_registry_cases id forceUpdate w)
    as [-> | [(popup & _ & ->) | (popup & Hg & ->)]].
  - apply Hnum.
  - intros Hi. apply In_map_delete in Hi as [Hi _]. now apply (Hnum k p).
  - intros Hi. apply In_map_set in Hi as [[_ ->]|Hi]; [|now apply (Hnum k p)].
    unfold numeric. destruct (beforeClosing_record popup) as (_ & _ & _ & _ & -> & _).
    apply (Hnum id popup). now apply map_get_In.
Qed.

(* the two ways an add that gets past its guard can go *)
Lemma addPopup_cases element opts w :
  truthy element = true -> stub w = true ->
  let newPopup := createPopup element (with_orderId (orderId w) opts) (props w) in
  ((forall k p, In (k, p) (popups w) -> collides newPopup p = false) /\
   addPopup element opts w =
     (Some (id newPopup),
      mkWorld (stub w) (orderId w + 1) (props w)
        (_sortPopups (map_set (id newPopup) newPopup (popups w)))
        (trace w ++ Commit (_sortPopups (map_set (id newPopup) newPopup (popups w)))
           :: call_if_function (prop newPopup "onAdded")))) \/
  (exists key popup,
     In (key, popup) (popups w) /\ collides newPopup popup = true /\
     let closed := removePopup key false (bump_orderId w) in
     addPopup element opts w =
       (Some (id newPopup),
        mkWorld (stub closed) (orderId closed) (props closed)
          (_sortPopups (map_set (id newPopup) (delayed newPopup popup) (popups closed)))
          (trace closed
             ++ Commit (_sortPopups (map_set (id newPopup) (delayed newPopup popup)
                                       (popups closed)))
             :: call_if_function (prop newPopup "onAdded")))).
Proof.
  intros He Hs newPopup. rewrite (addPopup_registers _ _ _ He Hs). cbv zeta.
  fold newPopup.
  destruct (evict_cases (popups (bump_orderId w)) newPopup (bump_orderId w))
    as [[Hno _]|(before & key & popup & after & Hp & Hno & Hyes & _)].
  - left. split; [exact Hno|].
    now rewrite (register_without_eviction newPopup (bump_orderId w) Hno).
  - right. exists key, popup. split; [|split; [exact Hyes|]].
    + simpl in Hp. rewrite Hp. apply in_or_app. right. now left.
    + now rewrite (register_after_eviction _ (bump_orderId w) before key popup after
                     Hp Hno Hyes).
Qed.

Lemma length_map_set {V} k (v : V) (m : list (string * V)) :
  length (map_set k v m) = (length m + if map_has k m then 0 else 1)%nat.
Proof.
  rewrite <- !(length_map fst). change (map fst ?l) with (map_keys l).
  rewrite map_keys_set. destruct (map_has k m); [lia|]. rewrite length_app. simpl. lia.
Qed.
End AddFrame.

(** An [addPopup] that gets past its guard and finds no open record on the
    newcomer's layer registers the record as the factory built it and leaves
    every other record as it was: the registry grows by one entry unless the
    id was taken, in which case the old record under that id is replaced.
    The call takes one order id, commits once and then calls [onAdded]. *)
Theorem addPopup_without_collision `{Collaborators}
    (element : Value) (opts : gmap string Value) (w : World) :
  let newPopup := createPopup element (with_orderId (orderId w) opts) (props w) in
  let w' := snd (addPopup element opts w) in
  truthy element = true -> stub w = true ->
  NoDup (map_keys (popups w)) ->
  (forall k p, In (k, p) (popups w) -> collides newPopup p = false) ->
  fst (addPopup element opts w) = Some (id newPopup) /\
  map_get (id newPopup) (popups w') = Some newPopup /\
  (forall k, k <> id newPopup -> map_get k (popups w') = map_get k (popups w)) /\
  length (popups w') =
    (length (popups w) + if map_has (id newPopup) (popups w) then 0 else 1)%nat /\
  orderId w' = (orderId w + 1)%Z /\
  trace w' = trace w ++ Commit (popups w') :: call_if_function (prop newPopup "onAdded").
Proof.
  intros newPopup w' He Hs Hnd Hno. subst w'.
  destruct (addPopup_cases element opts w He Hs)
    as [[_ ->]|(key & popup & Hin & Hyes & _)].
  - fold newPopup. cbn [fst snd popups trace orderId].
    assert (Hnd' : NoDup (map_keys (map_set (id newPopup) newPopup (popups w))))
      by now apply NoDup_map_set.
    repeat split.
    + rewrite map_get_sortPopups by assumption. apply map_get_set_eq.
    + intros k Hk. rewrite map_get_sortPopups by assumption.
      apply map_get_set_ne. congruence.
    + rewrite (Permutation_length (sortPopups_Permutation _ Hnd')).
      apply length_map_set.
  - fold newPopup in Hyes. rewrite (Hno key popup Hin) in Hyes. discriminate.
Qed.

Lemma addPopup_without_collision_witness :
  map_get "t" (popups (snd (@addPopup sample (VObj "toast")
                              {[ "id" := VStr "t"; "zIndex" := VNum (Fin 9) ]}
                              (showing [sheet]))))
    = Some (popup_of [("id", VStr "t"); ("zIndex", VNum (Fin 9))]) /\
  map_get "sheet" (popups (snd (@addPopup sample (VObj "toast")
                                  {[ "id" := VStr "t"; "zIndex" := VNum (Fin 9) ]}
                                  (showing [sheet]))))
    = Some sheet.
Proof.
  assert (Hnd : NoDup (map_keys (popups (showing [sheet])))).
  { apply (bool_decide_unpack _). vm_compute. exact I. }
  assert (Hno : forall k p, In (k, p) (popups (showing [sheet])) ->
            collides (@createPopup sample (VObj "toast")
                        (with_orderId (orderId (showing [sheet]))
                           {[ "id" := VStr "t"; "zIndex" := VNum (Fin 9) ]})
                        (props (showing [sheet]))) p = false).
  { intros k p [[= <- <-]|[]]. reflexivity. }
  pose proof (@addPopup_without_collision sample (VObj "toast")
                {[ "id" := VStr "t"; "zIndex" := VNum (Fin 9) ]} (showing [sheet])
                eq_refl eq_refl Hnd Hno) as (_ & Hnew & Hother & _).
  split; [exact Hnew|]. now rewrite Hother.
Defined.

(** An [addPopup] that gets past its guard changes at most one record
    besides the one under the newcomer's id, and that one was open on the
    newcomer's layer: every other key keeps its record. *)
Theorem addPopup_touches_one_record `{Collaborators}
    (element : Value) (opts : gmap string Value) (w : World) :
  let newPopup := createPopup element (with_orderId (orderId w) opts) (props w) in
  let w' := snd (addPopup element opts w) in
  truthy element = true -> stub w = true ->
  NoDup (map_keys (popups w)) ->
  exists touched : option string,
    (forall key, touched = Some key ->
       exists popup, map_get key (popups w) = Some popup /\
                     _closing popup = false /\
                     strict_eq (prop popup "zIndex") (prop newPopup "zIndex") = true) /\
    (forall k, k <> id newPopup -> touched <> Some k ->
       map_get k (popups w') = map_get k (popups w)).
Proof.
  intros newPopup w' He Hs Hnd. subst w'.
  destruct (addPopup_cases element opts w He Hs)
    as [[_ ->]|(key & popup & Hin & Hyes & ->)]; fold newPopup; cbn [snd popups].
  - exists None. split; [discriminate|]. intros k Hk _.
    rewrite map_get_sortPopups by now apply NoDup_map_set.
    apply map_get_set_ne. congruence.
  - exists (Some key). split.
    + intros key' [= <-]. exists popup. split; [now apply In_map_get|].
      fold newPopup in Hyes. apply andb_true_iff in Hyes as [Hz Hc].
      apply negb_true_iff in Hc. now split.
    + intros k Hk Hkey.
      rewrite map_get_sortPopups by now apply NoDup_map_set, removePopup_NoDup.
      rewrite map_get_set_ne by congruence.
      rewrite removePopup_other by congruence. reflexivity.
Qed.

Lemma addPopup_touches_one_record_witness :
  exists touched : option string,
    (forall key, touched = Some key ->
       exists popup, map_get key (popups (showing [sheet; toast "t"])) = Some popup /\
                     _closing popup = false /\
                     strict_eq (prop popup "zIndex")
                       (prop (@createPopup sample (VObj "alert")
                                (with_orderId (orderId (showing [sheet; toast "t"]))
                                   {[ "id" := VStr "alert" ]})
                                (props (showing [sheet; toast "t"]))) "zIndex") = true) /\
    (forall k, k <> id (@createPopup sample (VObj "alert")
                          (with_orderId (orderId (showing [sheet; toast "t"]))
                             {[ "id" := VStr "alert" ]})
                          (props (showing [sheet; toast "t"]))) ->
       touched <> Some k ->
       map_get k (popups (snd (@addPopup sample (VObj "alert") {[ "id" := VStr "alert" ]}
                                 (showing [sheet; toast "t"]))))
         = map_get k (popups (showing [sheet; toast "t"]))).
Proof.
  apply (@addPopup_touches_one_record sample (VObj "alert") {[ "id" := VStr "alert" ]}
           (showing [sheet; toast "t"])); try reflexivity.
  apply (bool_decide_unpack _). vm_compute. exact I.
Defined.

(** After an [addPopup] that gets past its guard the whole registry is in
    ascending [zIndex] order, whatever order it was in before, provided the
    records and the newcomer have finite numbers as [zIndex]. *)
Theorem addPopup_leaves_registry_sorted `{Collaborators}
    (element : Value) (opts : gmap string Value) (w : World) :
  truthy element = true -> stub w = true ->
  NoDup (map_keys (popups w)) ->
  (forall k p, In (k, p) (popups w) -> numeric p = true) ->
  numeric (createPopup element (with_orderId (orderId w) opts) (props w)) = true ->
  StronglySorted (fun a b => zIndex_le (snd a) (snd b))
    (popups (snd (addPopup element opts w))).
Proof.
  intros He Hs Hnd Hnum Hnew.
  destruct (addPopup_cases element opts w He Hs)
    as [[_ ->]|(key & popup & Hin & Hyes & ->)]; cbn [snd popups].
  - apply sortPopups_ascending; [now apply NoDup_map_set|].
    apply Forall_forall. intros [k p] Hi. apply list_elem_of_In in Hi. cbn [snd].
    apply In_map_set in Hi as [[_ ->]|Hi]; [assumption|now apply (Hnum k p)].
  - apply sortPopups_ascending; [now apply NoDup_map_set, removePopup_NoDup|].
    apply Forall_forall. intros [k p] Hi. apply list_elem_of_In in Hi. cbn [snd].
    apply In_map_set in Hi as [[_ ->]|Hi].
    + unfold numeric.
      now destruct (delayed_record (createPopup element (with_orderId (orderId w) opts)
                                      (props w)) popup) as (_ & _ & _ & -> & _).
    + now apply (removePopup_numeric key false (bump_orderId w) Hnum k p).
Qed.

Lemma addPopup_leaves_registry_sorted_witness :
  StronglySorted (fun a b => zIndex_le (snd a) (snd b))
    (popups (snd (@addPopup sample (VObj "alert")
                    {[ "id" := VStr "alert"; "zIndex" := VNum (Fin 5) ]}
                    (mutate unsorted ready)))).
Proof.
  apply (@addPopup_leaves_registry_sorted sample); try reflexivity.
  - apply (bool_decide_unpack _). vm_compute. exact I.
  - intros k p [[= <- <-]|[[= <- <-]|[[= <- <-]|[[= <- <-]|[]]]]]; reflexivity.
Defined.

(** * From open to removed *)

Section Lifecycle.
Context `{Collaborators}.

Lemma beforeClosing_other_props popup key :
  ~ In key closing_keys ->
  prop (fst (_beforeClosing popup)) key = prop popup key.
Proof.
  intros Hkey.
  assert (Hne : forall k, In k closing_keys -> k <> key) by (intros k Hk ->; contradiction).
  assert (H1 := Hne "delay"). assert (H2 := Hne "direction").
  assert (H3 := Hne "closingAnimation"). assert (H4 := Hne "onAnimationEnd").
  unfold closing_keys in H1, H2, H3, H4. simpl in H1, H2, H3, H4.
  unfold _beforeClosing. cbv zeta.
  set (base := set_closing (set_prop popup "delay" (VNum (Fin 0))) true).
  set (masked := if _maskAnimatable base then _ else base).
  assert (Hmasked : forall k, prop masked k = prop base k).
  { intros k. subst masked. now destruct (_maskAnimatable base). }
  assert (Hbase : prop base key = prop popup key).
  { unfold base. apply prop_set_prop_ne. tauto. }
  destruct (negb (truthy (prop masked "closingAnimation")) && is_string (prop masked "animation"));
    cbn [fst];
    repeat (rewrite prop_set_prop_ne by tauto);
    now rewrite Hmasked.
Qed.

Lemma map_delete_set {V} k (v : V) (m : list (string * V)) :
  map_delete k (map_set k v m) = map_delete k m.
Proof.
  induction m as [|[k' v'] m IH]; simpl.
  - now rewrite String.eqb_refl.
  - destruct (String.eqb_spec k k') as [->|Hne]; simpl.
    + now rewrite String.eqb_refl.
    + destruct (String.eqb_spec k k'); [contradiction|]. simpl. now rewrite IH.
Qed.

Lemma In_map_set_kept {V} k (v : V) k0 v0 (m : list (string * V)) :
  k0 <> k -> In (k0, v0) m -> In (k0, v0) (map_set k v m).
Proof.
  intros Hne. induction m as [|[k' v'] m IH]; simpl; [intros []|].
  destruct (String.eqb_spec k k') as [->|Hk]; simpl.
  - intros [[= -> ->]|Hi]; [contradiction|now right].
  - intros [He|Hi]; [now left|right; now apply IH].
Qed.

Lemma removePopup_settles popupId first second w :
  removePopup popupId second (removePopup popupId first w) = removePopup popupId first w.
Proof.
  destruct (removePopup_registry_cases popupId first w)
    as [Hsame | [(q & Hq & Hdel) | (q & Hq & Hset)]].
  - (* the registry did not move: the first call was stopped before it could act *)
    destruct (nonempty popupId) eqn:Hid;
      [|now rewrite (removePopup_guarded popupId first w), removePopup_guarded by now left].
    destruct (stub w) eqn:Hs;
      [|now rewrite (removePopup_guarded popupId first w), removePopup_guarded by now right].
    destruct (map_get popupId (popups w)) as [popup|] eqn:Hg;
      [|now rewrite (removePopup_absent popupId first w Hg), removePopup_absent].
    destruct (_closing popup) eqn:Hc;
      [now rewrite (removePopup_closing popupId first popup w Hg Hc),
         (removePopup_closing popupId second popup w Hg Hc)|].
    destruct (map_get popupId (popups (removePopup popupId first w))) as [popup'|] eqn:Hg';
      [|now apply removePopup_absent].
    rewrite Hsame, Hg in Hg'. injection Hg' as <-.
    destruct (truthy (prop popup "animation") && truthy (prop popup "visible")) eqn:Hav.
    + apply andb_true_iff in Hav as [Ha Hv].
      rewrite (removePopup_begins_closing popupId first popup w) in Hsame by assumption.
      cbv zeta in Hsame. cbn [popups] in Hsame.
      assert (Hget : map_get popupId (map_set popupId (fst (_beforeClosing popup)) (popups w))
                     = Some (fst (_beforeClosing popup))) by apply map_get_set_eq.
      rewrite Hsame, Hg in Hget. injection Hget as Hp.
      destruct (beforeClosing_record popup) as (_ & _ & Hcl & _).
      rewrite <- Hp in Hcl. congruence.
    + rewrite (removePopup_immediate popupId first popup w) in Hsame; try assumption.
      * rewrite (removePopupImmediately_present _ _ _ Hg) in Hsame. cbn [snd popups] in Hsame.
        pose proof (map_get_delete_eq popupId (popups w)) as Hgone.
        rewrite Hsame, Hg in Hgone. discriminate.
      * apply andb_false_iff in Hav as [-> | ->]; [now left|now right].
  - apply removePopup_absent. rewrite Hdel. apply map_get_delete_eq.
  - apply (removePopup_closing popupId second (fst (_beforeClosing q))).
    + rewrite Hset. apply map_get_set_eq.
    + apply beforeClosing_record.
Qed.

Lemma static_removePopup_instance id forceUpdate w :
  static_removePopup id forceUpdate w = Done tt (removePopup id forceUpdate w).
Proof.
  unfold static_removePopup.
  destruct (nonempty id) eqn:Hid; simpl.
  - destruct (stub w) eqn:Hs; [reflexivity|].
    now rewrite removePopup_guarded by now right.
  - now rewrite removePopup_guarded by now left.
Qed.
End Lifecycle.

(** A record that [removePopup] has put into the closing state is taken off
    the registry by the [removePopupImmediately] that its timer or its
    animation end runs: the registry is then the original one without the
    record, [onClosed], as the record had it when it was open, is called
    once after that commit and nowhere else, and a later firing of the other
    of the two finds nothing. *)
Theorem closing_then_removed `{Collaborators}
    (popupId : string) (forceUpdate : bool) (popup : Popup) (w : World) :
  nonempty popupId = true -> stub w = true ->
  map_get popupId (popups w) = Some popup -> _closing popup = false ->
  truthy (prop popup "animation") = true -> truthy (prop popup "visible") = true ->
  let closing := removePopup popupId forceUpdate w in
  let removed := snd (removePopupImmediately popupId closing) in
  fst (removePopupImmediately popupId closing) = true /\
  popups removed = map_delete popupId (popups w) /\
  (forall f, ~ In (Call f) (skipn (length (trace w)) (trace closing))) /\
  trace removed = trace closing ++ Commit (popups removed)
                    :: call_if_function (prop popup "onClosed") /\
  removePopupImmediately popupId removed = (false, removed).
Proof.
  intros Hid Hs Hg Hc Ha Hv closing removed. subst removed closing.
  rewrite (removePopup_begins_closing popupId forceUpdate popup w) by assumption.
  cbv zeta.
  set (w1 := mkWorld _ _ _ _ _).
  assert (Hg1 : map_get popupId (popups w1) = Some (fst (_beforeClosing popup))).
  { unfold w1. simpl. apply map_get_set_eq. }
  rewrite (removePopupImmediately_present _ _ _ Hg1).
  rewrite beforeClosing_other_props
    by (unfold closing_keys; simpl; intuition discriminate).
  unfold w1. cbn [fst snd popups trace]. rewrite map_delete_set.
  repeat split.
  - intros f. rewrite skipn_app, skipn_all, Nat.sub_diag. simpl.
    intros Hi. apply in_app_or in Hi as [Hi|Hi].
    + pose proof (beforeClosing_animation popup) as Hanim. cbv zeta in Hanim.
      destruct (negb (truthy (prop popup "closingAnimation"))
                && is_string (prop popup "animation"));
        destruct Hanim as (_ & _ & Ht); rewrite Ht in Hi; simpl in Hi;
        intuition discriminate.
    + destruct forceUpdate; simpl in Hi; intuition discriminate.
  - apply removePopupImmediately_absent. simpl. apply map_get_delete_eq.
Qed.

Lemma closing_then_removed_witness :
  popups (snd (@removePopupImmediately sample "sheet"
                 (@removePopup sample "sheet" true (showing [sheet; toast "t"]))))
    = [("t", toast "t")].
Proof.
  apply (@closing_then_removed sample "sheet" true sheet (showing [sheet; toast "t"]));
    reflexivity.
Defined.

(** * The back button, press after press *)

(** When the back handler reports the press as handled, in a controller
    that is the registered stub and whose records sit under their own,
    non-empty ids, the record it settled on was the open visible one of
    highest [_orderId], and afterwards that record is no longer eligible
    while all other eligible records are the same as before: the next press
    goes to the next record down. *)
Theorem onBackAndroid_closes_latest `{Collaborators} (w w' : World) :
  stub w = true -> keyed_by_id (popups w) ->
  (forall k p, In (k, p) (popups w) -> nonempty k = true) ->
  _onBackAndroid w = Returned true w' ->
  exists c,
    In (id c, c) (popups w) /\ eligible c = true /\
    (forall p, In p (map_values (popups w)) -> eligible p = true ->
               (_orderId p <= _orderId c)%Z) /\
    (forall k p, In (k, p) (popups w') /\ eligible p = true <->
                 In (k, p) (popups w) /\ eligible p = true /\ k <> id c).
Proof.
  intros Hs [Hnd Hkeyed] Hkeys Hback. unfold _onBackAndroid in Hback.
  destruct (popups w) as [|e m] eqn:Hp; [discriminate|].
  cbn [length Nat.eqb] in Hback.
  assert (Hne : map_values (e :: m) <> []) by discriminate.
  destruct (back_candidate _ Hne) as (c & Hpop & Hin & Hmax).
  rewrite Hpop in Hback.
  destruct (_closing c || negb (truthy (prop c "visible"))) eqn:Hel; [discriminate|].
  destruct (truthy (prop c "autoClose") && truthy (prop c "visible")); [|discriminate].
  injection Hback as <-.
  assert (Helc : eligible c = true) by (unfold eligible; now rewrite Hel).
  apply orb_false_iff in Hel as [Hcl Hvis]. apply negb_false_iff in Hvis.
  rewrite <- Hp in *. clear Hp e m Hne Hpop.
  apply in_map_iff in Hin as ([k0 c0] & Hc0 & Hin). simpl in Hc0. subst c0.
  assert (Hk0 : id c = k0) by now apply Hkeyed. subst k0.
  assert (Hg : map_get (id c) (popups w) = Some c) by now apply In_map_get.
  exists c. split; [assumption|]. split; [assumption|].
  split; [intros p Hi Hp; now apply Hmax|].
  destruct (truthy (prop c "animation")) eqn:Ha.
  - rewrite (removePopup_begins_closing (id c) true c w);
      try assumption; [|now apply (Hkeys (id c) c)].
    cbv zeta. cbn [popups]. intros k p. split.
    + intros [Hi Hp]. apply In_map_set_NoDup in Hi as [[-> ->]|[Hk Hi]]; [| |assumption].
      * unfold eligible in Hp.
        destruct (beforeClosing_record c) as (_ & _ & Hclosing & _).
        rewrite Hclosing in Hp. discriminate.
      * now repeat split.
    + intros (Hi & Hp & Hk). split; [|assumption]. now apply In_map_set_kept.
  - rewrite (removePopup_immediate (id c) true c w);
      try assumption; [|now apply (Hkeys (id c) c)|now left].
    rewrite (removePopupImmediately_present _ _ _ Hg). cbn [snd popups].
    intros k p. rewrite In_map_delete. tauto.
Qed.

Lemma onBackAndroid_closes_latest_witness :
  exists c,
    In (id c, c) (popups (showing [ordered "p1" 1 true; ordered "p2" 2 true])) /\
    eligible c = true /\
    (forall p, In p (map_values (popups (showing [ordered "p1" 1 true; ordered "p2" 2 true]))) ->
               eligible p = true -> (_orderId p <= _orderId c)%Z) /\
    (forall k p,
       In (k, p) (popups (@removePopup sample "p2" true
                            (showing [ordered "p1" 1 true; ordered "p2" 2 true])))
       /\ eligible p = true <->
       In (k, p) (popups (showing [ordered "p1" 1 true; ordered "p2" 2 true]))
       /\ eligible p = true /\ k <> id c).
Proof.
  apply (@onBackAndroid_closes_latest sample
           (showing [ordered "p1" 1 true; ordered "p2" 2 true])); try reflexivity.
  - split; [apply (bool_decide_unpack _); vm_compute; exact I|].
    intros k p [[= <- <-]|[[= <- <-]|[]]]; reflexivity.
  - intros k p [[= <- <-]|[[= <- <-]|[]]]; reflexivity.
Defined.

(** * The tap on a mask *)

(** A tap on the mask of a registered record never fails. When the record
    closes on taps and is not closing yet, the tap is [removePopup] for its
    id; otherwise nothing happens. A second tap, on the record as the first
    tap left it (still registered and changed in place, or taken off the
    registry), changes nothing more. *)
Theorem onAutoClose_taps_once `{Collaborators} (popup : Popup) (w : World) :
  map_get (id popup) (popups w) = Some popup ->
  let tapped := if truthy (prop popup "autoClose") && negb (_closing popup)
                then removePopup (id popup) true w else w in
  onAutoClose (Some popup) w = Done tt tapped /\
  forall popup',
    map_get (id popup) (popups tapped) = Some popup' \/
    (map_get (id popup) (popups tapped) = None /\ popup' = popup) ->
    onAutoClose (Some popup') tapped = Done tt tapped.
Proof.
  intros Hg tapped. subst tapped. unfold onAutoClose.
  destruct (truthy (prop popup "autoClose") && negb (_closing popup)) eqn:Htap.
  - rewrite static_removePopup_instance. split; [reflexivity|].
    apply andb_true_iff in Htap as [Hauto Hc]. apply negb_true_iff in Hc.
    intros popup' Hafter.
    destruct (truthy (prop popup' "autoClose") && negb (_closing popup')) eqn:Htap';
      [|reflexivity].
    rewrite static_removePopup_instance.
    destruct (removePopup_registry_cases (id popup) true w)
      as [Hsame | [(q & Hq & Hdel) | (q & Hq & Hset)]].
    + (* the guard stopped the first tap, or the record was out of reach *)
      rewrite Hsame, Hg in Hafter. destruct Hafter as [[= <-]|[[=] _]].
      now rewrite removePopup_settles.
    + rewrite Hdel, map_get_delete_eq in Hafter.
      destruct Hafter as [[=]|[_ ->]]. now rewrite removePopup_settles.
    + rewrite Hset, map_get_set_eq in Hafter.
      destruct Hafter as [[= <-]|[[=] _]].
      destruct (beforeClosing_record q) as (_ & _ & Hclosing & _).
      rewrite Hclosing, andb_false_r in Htap'. discriminate.
  - split; [reflexivity|]. intros popup' [Hafter|[Hafter _]]; [|congruence].
    rewrite Hg in Hafter. injection Hafter as <-. now rewrite Htap.
Qed.

Lemma onAutoClose_taps_once_witness :
  @onAutoClose sample (Some sheet) (showing [sheet])
    = Done tt (@removePopup sample "sheet" true (showing [sheet])).
Proof.
  apply (@onAutoClose_taps_once sample sheet (showing [sheet])). reflexivity.
Defined.

(** * What is on the screen *)

Section Screen.
Context `{Collaborators}.

Lemma children_by_visible_and_id (l l' : list Popup) :
  map (fun q => (truthy (prop q "visible"), id q)) l
    = map (fun q => (truthy (prop q "visible"), id q)) l' ->
  map id (List.filter (fun q => truthy (prop q "visible")) l)
    = map id (List.filter (fun q => truthy (prop q "visible")) l').
Proof.
  revert l'. induction l as [|q l IH]; intros [|q' l']; simpl; try discriminate;
    [reflexivity|].
  intros [= Hv Hi Hrest]. rewrite Hv.
  destruct (truthy (prop q' "visible")); simpl; [rewrite Hi; f_equal|]; now apply IH.
Qed.

Lemma map_values_set_same {B} (f : Popup -> B) k p p' (m : Registry) :
  map_get k m = Some p -> f p' = f p ->
  map f (map_values (map_set k p' m)) = map f (map_values m).
Proof.
  intros Hg Hf. induction m as [|[k0 p0] m IH]; simpl in *; [discriminate|].
  destruct (String.eqb_spec k k0) as [->|Hne]; simpl.
  - injection Hg as ->. now rewrite Hf.
  - f_equal. now apply IH.
Qed.

Lemma pointerEvents_children (w : World) :
  pointerEvents (render w)
  = match children (render w) with [] => "none" | _ :: _ => "box-none" end.
Proof. unfold render. simpl. now destruct (List.filter _ _). Qed.
End Screen.



(** A record stays on the screen while it closes: when [removePopup] puts a
    visible record into the closing state, the view shows the records with
    the same ids in the same order as before and keeps taking touches; only
    [removePopupImmediately] takes the record off. *)
Theorem closing_stays_rendered `{Collaborators}
    (popupId : string) (forceUpdate : bool) (popup : Popup) (w : World) :
  nonempty popupId = true -> stub w = true ->
  map_get popupId (popups w) = Some popup -> _closing popup = false ->
  truthy (prop popup "animation") = true -> truthy (prop popup "visible") = true ->
  let closing := removePopup popupId forceUpdate w in
  map id (children (render closing)) = map id (children (render w)) /\
  pointerEvents (render closing) = "box-none" /\
  children (render (snd (removePopupImmediately popupId closing)))
    = List.filter (fun q => truthy (prop q "visible"))
        (map_values (map_delete popupId (popups w))).
Proof.
  intros Hid Hs Hg Hc Ha Hv closing. subst closing.
  rewrite (removePopup_begins_closing popupId forceUpdate popup w) by assumption.
  cbv zeta. set (w1 := mkWorld _ _ _ _ _).
  destruct (beforeClosing_record popup) as (Hsame & _ & _ & _ & _ & Hvis & _).
  assert (Hids : map id (children (render w1)) = map id (children (render w))).
  { unfold render, w1. cbn [children popups]. apply children_by_visible_and_id.
    apply (map_values_set_same _ popupId popup); [assumption|]. now rewrite Hvis, Hsame. }
  split; [exact Hids|]. split.
  - rewrite pointerEvents_children.
    destruct (children (render w1)) eqn:Hch; [|reflexivity].
    symmetry in Hids. change (map id []) with (@nil string) in Hids.
    apply map_eq_nil in Hids.
    assert (Hin : In popup (children (render w))); [|rewrite Hids in Hin; destruct Hin].
    unfold render. cbn [children]. apply filter_In. split; [|assumption].
    apply in_map_iff. exists (popupId, popup). split; [reflexivity|now apply map_get_In].
  - assert (Hg1 : map_get popupId (popups w1) = Some (fst (_beforeClosing popup))).
    { unfold w1. simpl. apply map_get_set_eq. }
    rewrite (removePopupImmediately_present _ _ _ Hg1). unfold render, w1.
    cbn [snd children popups]. now rewrite map_delete_set.
Qed.

Lemma closing_stays_rendered_witness :
  map id (children (render (@removePopup sample "sheet" true (showing [sheet; toast "t"]))))
    = ["sheet"; "t"].
Proof.
  apply (@closing_stays_rendered sample "sheet" true sheet (showing [sheet; toast "t"]));
    reflexivity.
Defined.

(** * The statics along a run *)

Section Statics.
Context `{Collaborators}.

Lemma statics_step op w :
  props (step op w) = props w /\ (stub w = true -> stub (step op w) = true).
Proof.
  destruct op as [r|element opts|id force|id|id key value|filter|]; simpl.
  - now destruct r.
  - unfold addPopup. destruct (negb (truthy element) || negb (stub w)); [easy|].
    pose proof (statics_register
                  (createPopup element (with_orderId (orderId w) opts) (props (bump_orderId w)))
                  (bump_orderId w)) as (_ & Hs & Hp).
    destruct (register _ _) as [id w']. simpl in *. rewrite Hs, Hp. easy.
  - destruct (statics_removePopup id force w) as (_ & -> & ->). easy.
  - now rewrite stub_removePopupImmediately, props_removePopupImmediately.
  - now destruct (resetPopupProperty_cases id key value w) as [-> | (popup & _ & ->)].
  - unfold removeAll. destruct (length (popups w) =? 0)%nat; [easy|]. now destruct filter.
  - unfold _onBackAndroid. destruct (length (popups w) =? 0)%nat; [easy|].
    destruct (pop _) as [popup|]; [|easy].
    destruct (_closing popup || negb (truthy (prop popup "visible"))); [easy|].
    destruct (truthy (prop popup "autoClose") && truthy (prop popup "visible")); [|easy].
    simpl. destruct (statics_removePopup (id popup) true w) as (_ & -> & ->). easy.
Qed.

Lemma counter_step op w :
  orderId (step op w)
  = (orderId w + Z.of_nat (length (assigned_orderIds [op] w)))%Z.
Proof.
  rewrite orderId_step. destruct op; simpl; try lia.
  destruct (negb (truthy element) || negb (stub w)); simpl; lia.
Qed.
End Statics.

(** Along any run the order counter advances by one for each [addPopup]
    that gets past its guard and by nothing else (a refused add takes no
    order id), the props stay, and a registered stub stays registered. *)
Theorem counter_counts_adds `{Collaborators} (ops : list Op) (w : World) :
  orderId (run ops w) = (orderId w + Z.of_nat (length (assigned_orderIds ops w)))%Z /\
  props (run ops w) = props w /\
  (stub w = true -> stub (run ops w) = true).
Proof.
  revert w. induction ops as [|op ops IH]; intros w; simpl.
  - split; [lia|easy].
  - destruct (IH (step op w)) as (Ho & Hp & Hs).
    destruct (statics_step op w) as (Hp1 & Hs1).
    rewrite Ho, Hp, Hp1, length_app, Nat2Z.inj_add, counter_step. simpl.
    rewrite app_nil_r. split; [lia|]. split; [reflexivity|]. auto.
Qed.

(** * The facade and the instance *)

(** The static [addPopup] and [removePopup] do what the instance methods
    do on every input, since the instance methods repeat the facade's
    checks. With a stub registered the static [resetPopupProperty] and
    [removeAll] are the instance methods too, and so is the static
    [removePopupImmediately] for a non-empty id; for the empty id the
    facade returns false even where the instance method would remove a
    record. *)
Theorem facade_mirrors_instance `{Collaborators}
    (element value : Value) (opts : gmap string Value) (popupId key : string)
    (forceUpdate : bool) (filter : option (Popup -> bool)) (w : World) :
  static_addPopup element opts w
    = Done (fst (addPopup element opts w)) (snd (addPopup element opts w)) /\
  static_removePopup popupId forceUpdate w = Done tt (removePopup popupId forceUpdate w) /\
  (stub w = true ->
   static_resetPopupProperty popupId key value w
     = Done tt (resetPopupProperty popupId key value w) /\
   static_removeAll filter w = Done tt (removeAll filter w) /\
   static_removePopupImmediately popupId w
     = if nonempty popupId
       then Done (fst (removePopupImmediately popupId w))
              (snd (removePopupImmediately popupId w))
       else Done false w).
Proof.
  split; [|split].
  - unfold static_addPopup, addPopup.
    destruct (truthy element), (stub w); simpl; try reflexivity.
    now destruct (register _ _).
  - apply static_removePopup_instance.
  - intros Hs. unfold static_resetPopupProperty, static_removeAll,
      static_removePopupImmediately. rewrite Hs, andb_true_r.
    repeat split.
    + destruct (nonempty popupId) eqn:Hid; [reflexivity|].
      unfold resetPopupProperty. now rewrite Hid.
    + destruct (nonempty popupId); [|reflexivity].
      now destruct (removePopupImmediately popupId w).
Qed.

Lemma facade_mirrors_instance_witness :
  @static_removeAll sample None (showing [sheet])
    = Done tt (@removeAll sample None (showing [sheet])).
Proof.
  apply (@facade_mirrors_instance sample VNull VNull ∅ "sheet" "zIndex" true None
           (showing [sheet])).
  reflexivity.
Defined.

(** * Hiding a record *)



(** * Bulk removal, once more *)

Section Settled.
Context `{Collaborators}.



End Settled.



(** * No way back from closing *)

Section Terminal.
Context `{Collaborators}.

Lemma none_open_removePopup k id forceUpdate w :
  none_open k (popups w) -> none_open k (popups (removePopup id forceUpdate w)).
Proof.
  intros Hno.
  destruct (removePopup_registry_cases id forceUpdate w)
    as [-> | [(q & _ & ->) | (q & _ & ->)]]; [assumption| |].
  - intros p. destruct (String.eqb_spec id k) as [->|Hne].
    + now rewrite map_get_delete_eq.
    + rewrite map_get_delete_ne by assumption. apply Hno.
  - intros p. destruct (String.eqb_spec id k) as [->|Hne].
    + rewrite map_get_set_eq. intros [= <-]. apply beforeClosing_record.
    + rewrite map_get_set_ne by assumption. apply Hno.
Qed.

Lemma map_get_filter k p (g : string * Popup -> bool) (m : Registry) :
  NoDup (map_keys m) -> map_get k (List.filter g m) = Some p -> map_get k m = Some p.
Proof.
  intros Hnd Hg. apply In_map_get; [assumption|].
  apply map_get_In in Hg. now apply filter_In in Hg.
Qed.

Lemma none_open_step k op w :
  keyed_by_id (popups w) -> reuses k op w = false ->
  none_open k (popups w) -> none_open k (popups (step op w)).
Proof.
  intros Hk Hre Hno.
  destruct op as [r|element opts|id force|id|id key value|filter|]; simpl.
  - now destruct r.
  - simpl in Hre.
    destruct (negb (truthy element) || negb (stub w)) eqn:Hguard.
    { unfold addPopup. now rewrite Hguard. }
    simpl in Hre. apply String.eqb_neq in Hre.
    apply orb_false_iff in Hguard as [He Hs].
    apply negb_false_iff in He. apply negb_false_iff in Hs.
    destruct (addPopup_cases element opts w He Hs)
      as [[_ ->]|(key & popup & _ & _ & ->)]; cbn [snd popups]; intros p.
    + rewrite map_get_sortPopups by apply NoDup_map_set, Hk.
      rewrite map_get_set_ne by assumption. apply Hno.
    + rewrite map_get_sortPopups by apply NoDup_map_set, removePopup_NoDup, Hk.
      rewrite map_get_set_ne by assumption.
      now apply (none_open_removePopup k key false (bump_orderId w)).
  - now apply none_open_removePopup.
  - intros p. destruct (map_get id (popups w)) as [q|] eqn:Hg.
    + rewrite (removePopupImmediately_present _ _ _ Hg). cbn [snd popups].
      destruct (String.eqb_spec id k) as [->|Hne].
      * now rewrite map_get_delete_eq.
      * rewrite map_get_delete_ne by assumption. apply Hno.
    + rewrite (removePopupImmediately_absent _ _ Hg). apply Hno.
  - destruct (resetPopupProperty_cases id key value w) as [-> | (popup & Hg & ->)];
      [assumption|]. cbn [popups]. intros p.
    destruct (String.eqb_spec id k) as [->|Hne].
    + rewrite map_get_set_eq. intros [= <-]. simpl. now apply Hno.
    + rewrite map_get_set_ne by assumption. apply Hno.
  - destruct (popups w) as [|e m] eqn:Hp.
    { unfold removeAll. rewrite Hp. simpl. now rewrite Hp. }
    assert (Hne : popups w <> []) by (rewrite Hp; discriminate).
    rewrite <- Hp in *. destruct filter as [f|].
    + rewrite removeAll_filtered by assumption. cbn [popups]. intros p Hg.
      apply Hno.
      apply (map_get_filter k p (fun kv => negb (f (snd kv))) (popups w)); [apply Hk|exact Hg].
    + unfold removeAll. rewrite Hp. cbn [length Nat.eqb]. intros p. discriminate.
  - unfold _onBackAndroid.
    destruct (length (popups w) =? 0)%nat; [assumption|].
    destruct (pop _) as [popup|]; [|assumption].
    destruct (_closing popup || negb (truthy (prop popup "visible"))); [assumption|].
    destruct (truthy (prop popup "autoClose") && truthy (prop popup "visible"));
      [now apply none_open_removePopup|assumption].
Qed.
End Terminal.

(** Closing and removed are final: once the record under an id is closing,
    or the id is not registered, no sequence of operations brings an open
    record back under that id, short of an [addPopup] that registers a new
    record under it. *)
Theorem closing_never_reopens `{Collaborators} (k : string) (ops : list Op) (w : World) :
  keyed_by_id (popups w) ->
  none_open k (popups w) ->
  never_reuses k ops w = true ->
  none_open k (popups (run ops w)).
Proof.
  revert w. induction ops as [|op ops IH]; intros w Hk Hno Hre; simpl; [assumption|].
  simpl in Hre. apply andb_true_iff in Hre as [Hop Hre]. apply negb_true_iff in Hop.
  apply IH; [now apply keyed_by_id_step|now apply none_open_step|assumption].
Qed.

Lemma closing_never_reopens_witness :
  none_open "sheet"
    (popups (@run sample
               [ResetPopupProperty "sheet" "visible" (VBool true);
                AddPopup (VObj "alert") {[ "id" := VStr "alert" ]};
                RemovePopup "sheet" true; BackAndroid]
               (@removePopup sample "sheet" true (showing [sheet])))).
Proof.
  apply (@closing_never_reopens sample); [| |reflexivity].
  - split; [apply (bool_decide_unpack _); vm_compute; exact I|].
    intros k p [[= <- <-]|[]]. reflexivity.
  - intros p. vm_compute. intros [= <-]. reflexivity.
Defined.
